(** * Tic-tac-toe: minimax and alpha-beta search (tictactoe_game.py)

    A shallow embedding of the rules and of the two search procedures of
    [tictactoe_game.py], and the properties of the design document that
    concern them.

    - A board is a Python list of one-character strings: [list string].
      The empty cell is the string [" "]; marks are compared as strings.
    - Python integers are [Z]; list indices are [nat]; [None] is the
      [None] of [option].
    - A call either returns or raises: [result].  [board[i]] outside the
      list raises [IndexError].  The searches are recursive and not
      structurally so: they take the depth of call stack still available,
      and raise [RecursionError] when it is used up.
    - The global node counters are threaded through the searches. *)

From stdpp Require Import base list sorting strings pretty gmap.
From Stdlib Require Import ZArith Lia Ascii.

Local Open Scope Z_scope.

(** ** Outcomes of a call *)

Inductive exn : Set := IndexError | RecursionError.

Inductive result (A : Type) : Type :=
| Ok (a : A)
| Raise (e : exn).
Arguments Ok {A} a.
Arguments Raise {A} e.

(** Sequencing: an exception raised by the first call ends the second. *)
Definition bind {A B : Type} (r : result A) (k : A → result B) : result B :=
  match r with Ok a => k a | Raise e => Raise e end.

Notation "x <- r ;; k" := (bind r (λ x, k))
  (at level 100, r at next level, right associativity).

(** ** Game rules and helpers *)

Abbreviation board := (list string).
Definition EMPTY : string := " ".

Definition LINES : list (nat * nat * nat) :=
  [ (0, 1, 2); (3, 4, 5); (6, 7, 8);
    (0, 3, 6); (1, 4, 7); (2, 5, 8);
    (0, 4, 8); (2, 4, 6) ]%nat.

(** [board[i]] *)
Definition getitem (b : board) (i : nat) : result string :=
  match b !! i with
  | Some v => Ok v
  | None => Raise IndexError
  end.

(** [b[i] = v] *)
Definition setitem (b : board) (i : nat) (v : string) : result board :=
  if decide (i < length b)%nat then Ok (<[i := v]> b) else Raise IndexError.

(** The loop of [winner] over the lines still to be looked at.  The test
    is [board[a] != ' ' and board[a] == board[b] == board[c]]: it reads the
    cells from left to right and stops at the first comparison that
    fails. *)
Fixpoint winner_in (lines : list (nat * nat * nat)) (b : board)
  : result (option string) :=
  match lines with
  | [] => Ok None
  | (i, j, k) :: rest =>
      x <- getitem b i ;;
      if negb (String.eqb x EMPTY) then
        y <- getitem b j ;;
        if String.eqb x y then
          z <- getitem b k ;;
          if String.eqb y z then Ok (Some x) else winner_in rest b
        else winner_in rest b
      else winner_in rest b
  end.

Definition winner (b : board) : result (option string) := winner_in LINES b.

(** [[i for i, v in enumerate(board) if v == ' ']], counting from [i]. *)
Fixpoint moves_from (i : nat) (b : board) : list nat :=
  match b with
  | [] => []
  | v :: vs =>
      if String.eqb v EMPTY then i :: moves_from (S i) vs
      else moves_from (S i) vs
  end.

Definition moves (b : board) : list nat := moves_from 0 b.

Definition is_nil {A} (l : list A) : bool :=
  match l with [] => true | _ => false end.

Definition terminal (b : board) : result bool :=
  w <- winner b ;;
  Ok (match w with Some _ => true | None => is_nil (moves b) end).

(** [w == me] where [w] is a mark or [None]. *)
Definition is_mark (w : option string) (p : string) : bool :=
  match w with Some x => String.eqb x p | None => false end.

Definition utility (b : board) (me opp : string) : result Z :=
  w <- winner b ;;
  Ok (if is_mark w me then 1 else if is_mark w opp then -1 else 0).

(** ** Minimax *)

(** What a search returns: [(value, move)]. *)
Definition answer : Type := Z * option nat.

(** The [for m in moves(board)] loop of [minimax] on the moves still to
    be tried; [rec] is the recursive call, [nodes] the counter
    [minimax_nodes].  [b2 = board[:]] is a copy of the list: here the
    board is a value, and the assignment [b2[m] = player] yields the
    changed copy.  (The copy as an object of its own is the subject of
    [Store] below.) *)
Fixpoint minimax_loop (rec : board → string → Z → result (answer * Z))
    (b : board) (player me opp : string) (ms : list nat)
    (best_val : Z) (best_move : option nat) (nodes : Z)
  : result (answer * Z) :=
  match ms with
  | [] => Ok ((best_val, best_move), nodes)
  | m :: ms' =>
      b2 <- setitem b m player ;;
      let next_player := if String.eqb player me then opp else me in
      res <- rec b2 next_player nodes ;;
      let '((val, _), nodes) := res in
      if String.eqb player me && (val >? best_val) then
        minimax_loop rec b player me opp ms' val (Some m) nodes
      else if String.eqb player opp && (val <? best_val) then
        minimax_loop rec b player me opp ms' val (Some m) nodes
      else
        minimax_loop rec b player me opp ms' best_val best_move nodes
  end.

Fixpoint minimax (depth : nat) (b : board) (player me opp : string)
    (minimax_nodes : Z) : result (answer * Z) :=
  match depth with
  | O => Raise RecursionError
  | S depth' =>
      let minimax_nodes := minimax_nodes + 1 in
      t <- terminal b ;;
      if t then
        u <- utility b me opp ;;
        Ok ((u, None), minimax_nodes)
      else
        let best_val := if String.eqb player me then -2 else 2 in
        minimax_loop (λ b2 p n, minimax depth' b2 p me opp n)
          b player me opp (moves b) best_val None minimax_nodes
  end.

(** ** Alpha-beta pruning *)

(** The loop of a MAX node: [best] is the pair [(val, move)] kept so far;
    the loop is left as soon as [alpha >= beta]. *)
Fixpoint alphabeta_max_loop
    (rec : board → string → Z → Z → Z → result (answer * Z))
    (b : board) (player opp : string) (ms : list nat)
    (best : answer) (alpha beta : Z) (nodes : Z) : result (answer * Z) :=
  match ms with
  | [] => Ok (best, nodes)
  | m :: ms' =>
      b2 <- setitem b m player ;;
      res <- rec b2 opp alpha beta nodes ;;
      let '((val, _), nodes) := res in
      let best := if val >? best.1 then (val, Some m) else best in
      let alpha := Z.max alpha val in
      if alpha >=? beta then Ok (best, nodes)
      else alphabeta_max_loop rec b player opp ms' best alpha beta nodes
  end.

(** The loop of a MIN node. *)
Fixpoint alphabeta_min_loop
    (rec : board → string → Z → Z → Z → result (answer * Z))
    (b : board) (player me : string) (ms : list nat)
    (best : answer) (alpha beta : Z) (nodes : Z) : result (answer * Z) :=
  match ms with
  | [] => Ok (best, nodes)
  | m :: ms' =>
      b2 <- setitem b m player ;;
      res <- rec b2 me alpha beta nodes ;;
      let '((val, _), nodes) := res in
      let best := if val <? best.1 then (val, Some m) else best in
      let beta := Z.min beta val in
      if alpha >=? beta then Ok (best, nodes)
      else alphabeta_min_loop rec b player me ms' best alpha beta nodes
  end.

Fixpoint alphabeta (depth : nat) (b : board) (player : string)
    (alpha beta : Z) (me opp : string) (alphabeta_nodes : Z)
  : result (answer * Z) :=
  match depth with
  | O => Raise RecursionError
  | S depth' =>
      let alphabeta_nodes := alphabeta_nodes + 1 in
      t <- terminal b ;;
      if t then
        u <- utility b me opp ;;
        Ok ((u, None), alphabeta_nodes)
      else
        let rec := λ b2 p a c n, alphabeta depth' b2 p a c me opp n in
        if String.eqb player me then
          alphabeta_max_loop rec b player opp (moves b)
            (-2, None) alpha beta alphabeta_nodes
        else
          alphabeta_min_loop rec b player me (moves b)
            (2, None) alpha beta alphabeta_nodes
  end.

Definition empty_board : board := replicate 9 EMPTY.


(** ** The searches on list objects

    In the program a board is a reference to a list object, [board[:]]
    makes a new object and [b2[m] = player] changes that object in place.
    [Store] follows the same code with the objects in a heap, so that
    what a call does to the lists it did not create can be stated.  The
    rules only read the list, so they are applied to the current content
    of the object. *)

Module Store.

Abbreviation loc := positive.

Record state : Type := State {
  heap : gmap loc board;
  minimax_nodes : Z;
  alphabeta_nodes : Z;
}.

(** The content of the list at [l]. *)
Definition deref (s : state) (l : loc) : board := default [] (heap s !! l).

(** [board[:]]: a new list object with the same content. *)
Definition copy (s : state) (l : loc) : loc * state :=
  let l2 := fresh (dom (heap s)) in
  (l2, State (<[l2 := deref s l]> (heap s))
             (minimax_nodes s) (alphabeta_nodes s)).

(** [b2[m] = v]: the object at [l] is changed in place. *)
Definition setitem (s : state) (l : loc) (i : nat) (v : string)
  : result state :=
  if decide (i < length (deref s l))%nat then
    Ok (State (<[l := <[i := v]> (deref s l)]> (heap s))
              (minimax_nodes s) (alphabeta_nodes s))
  else Raise IndexError.

Definition count_minimax (s : state) : state :=
  State (heap s) (minimax_nodes s + 1) (alphabeta_nodes s).

Definition count_alphabeta (s : state) : state :=
  State (heap s) (minimax_nodes s) (alphabeta_nodes s + 1).

Fixpoint minimax_loop (rec : loc → string → state → result (answer * state))
    (board : loc) (player me opp : string) (ms : list nat)
    (best_val : Z) (best_move : option nat) (s : state)
  : result (answer * state) :=
  match ms with
  | [] => Ok ((best_val, best_move), s)
  | m :: ms' =>
      let '(b2, s) := copy s board in
      s <- setitem s b2 m player ;;
      let next_player := if String.eqb player me then opp else me in
      res <- rec b2 next_player s ;;
      let '((val, _), s) := res in
      if String.eqb player me && (val >? best_val) then
        minimax_loop rec board player me opp ms' val (Some m) s
      else if String.eqb player opp && (val <? best_val) then
        minimax_loop rec board player me opp ms' val (Some m) s
      else
        minimax_loop rec board player me opp ms' best_val best_move s
  end.

Fixpoint minimax (depth : nat) (board : loc) (player me opp : string)
    (s : state) : result (answer * state) :=
  match depth with
  | O => Raise RecursionError
  | S depth' =>
      let s := count_minimax s in
      t <- terminal (deref s board) ;;
      if t then
        u <- utility (deref s board) me opp ;;
        Ok ((u, None), s)
      else
        let best_val := if String.eqb player me then -2 else 2 in
        minimax_loop (λ b2 p s, minimax depth' b2 p me opp s)
          board player me opp (moves (deref s board)) best_val None s
  end.

Fixpoint alphabeta_max_loop
    (rec : loc → string → Z → Z → state → result (answer * state))
    (board : loc) (player opp : string) (ms : list nat)
    (best : answer) (alpha beta : Z) (s : state)
  : result (answer * state) :=
  match ms with
  | [] => Ok (best, s)
  | m :: ms' =>
      let '(b2, s) := copy s board in
      s <- setitem s b2 m player ;;
      res <- rec b2 opp alpha beta s ;;
      let '((val, _), s) := res in
      let best := if val >? best.1 then (val, Some m) else best in
      let alpha := Z.max alpha val in
      if alpha >=? beta then Ok (best, s)
      else alphabeta_max_loop rec board player opp ms' best alpha beta s
  end.

Fixpoint alphabeta_min_loop
    (rec : loc → string → Z → Z → state → result (answer * state))
    (board : loc) (player me : string) (ms : list nat)
    (best : answer) (alpha beta : Z) (s : state)
  : result (answer * state) :=
  match ms with
  | [] => Ok (best, s)
  | m :: ms' =>
      let '(b2, s) := copy s board in
      s <- setitem s b2 m player ;;
      res <- rec b2 me alpha beta s ;;
      let '((val, _), s) := res in
      let best := if val <? best.1 then (val, Some m) else best in
      let beta := Z.min beta val in
      if alpha >=? beta then Ok (best, s)
      else alphabeta_min_loop rec board player me ms' best alpha beta s
  end.

Fixpoint alphabeta (depth : nat) (board : loc) (player : string)
    (alpha beta : Z) (me opp : string) (s : state)
  : result (answer * state) :=
  match depth with
  | O => Raise RecursionError
  | S depth' =>
      let s := count_alphabeta s in
      t <- terminal (deref s board) ;;
      if t then
        u <- utility (deref s board) me opp ;;
        Ok ((u, None), s)
      else
        let rec := λ b2 p a c s, alphabeta depth' b2 p a c me opp s in
        if String.eqb player me then
          alphabeta_max_loop rec board player opp (moves (deref s board))
            (-2, None) alpha beta s
        else
          alphabeta_min_loop rec board player me (moves (deref s board))
            (2, None) alpha beta s
  end.

End Store.

(** ** The display and the game loop

    [print_board] and [play_game] write to the console and read from it.
    The console is a [world]: the lines still to be read, what has been
    written so far (oldest first), and the two global counters.  A call
    either is [Done], or has [Failed] with an exception, in both cases in
    the world it has reached.

    The built-in functions applied to a line that was read are parameters
    of the loop: [parse_int] is [int] ([None] where it raises
    [ValueError]) and [says_yes] is [.strip().lower().startswith('y')].
    The [while] loop is unfolded at most [steps] times; a game that is
    still running then is [Cut].  [play_game] returns nothing in the
    program; here it gives back the board it ends with, so that the end of
    the game can be stated. *)

Module Game.

Inductive event : Set :=
| Print (s : string)
| Prompt (s : string).

Record world : Type := World {
  stdin : list string;
  stdout : list event;
  minimax_nodes : Z;
  alphabeta_nodes : Z;
}.

Inductive game_exn : Set :=
| Raised (e : exn)
| EOFError
| TypeError.

Inductive run (A : Type) : Type :=
| Done (a : A) (w : world)
| Failed (e : game_exn) (w : world)
| Cut (w : world).
Arguments Done {A} a w.
Arguments Failed {A} e w.
Arguments Cut {A} w.

Definition io (A : Type) : Type := world → run A.

Definition ret {A : Type} (a : A) : io A := λ w, Done a w.

Definition iobind {A B : Type} (m : io A) (k : A → io B) : io B :=
  λ w, match m w with
       | Done a w' => k a w'
       | Failed e w' => Failed e w'
       | Cut w' => Cut w'
       end.

Notation "x <~ m ;; k" := (iobind m (λ x, k))
  (at level 100, m at next level, right associativity).

(** A call of the rules or of a search that raises ends the game. *)
Definition lift {A : Type} (r : result A) : io A :=
  λ w, match r with Ok a => Done a w | Raise e => Failed (Raised e) w end.

(** [print(s)] *)
Definition print (s : string) : io unit :=
  λ w, Done tt (World (stdin w) (stdout w ++ [Print s])
                  (minimax_nodes w) (alphabeta_nodes w)).

(** [input(prompt)]: the prompt is written, then a line is read; at the
    end of the input it raises [EOFError]. *)
Definition input (prompt : string) : io string :=
  λ w, let out := stdout w ++ [Prompt prompt] in
       match stdin w with
       | [] => Failed EOFError
                 (World [] out (minimax_nodes w) (alphabeta_nodes w))
       | line :: rest =>
           Done line (World rest out (minimax_nodes w) (alphabeta_nodes w))
       end.

Definition NL : string := String "010"%char "".

(** The loop [for i in range(0, 9, 3)] of [print_board]. *)
Fixpoint print_rows (rows : list nat) (board : list string) : io unit :=
  match rows with
  | [] => ret tt
  | i :: rest =>
      a <~ lift (getitem board i) ;;
      b <~ lift (getitem board (i + 1)) ;;
      c <~ lift (getitem board (i + 2)) ;;
      _ <~ print (" " +:+ a +:+ " | " +:+ b +:+ " | " +:+ c +:+ " ") ;;
      _ <~ (if (i <? 6)%nat then print "---+---+---" else ret tt) ;;
      print_rows rest board
  end.

Definition print_board (board : list string) : io unit :=
  _ <~ print NL ;;
  _ <~ print_rows [0; 3; 6]%nat board ;;
  print NL.

Definition human : string := "X".
Definition ai : string := "O".

(** [minimax_nodes = 0; alphabeta_nodes = 0] *)
Definition reset_counters : io unit :=
  λ w, Done tt (World (stdin w) (stdout w) 0 0).

(** The calls of the searches: each counts in its own global counter. *)
Definition call_minimax (depth : nat) (board : list string) : io answer :=
  λ w, match minimax depth board ai ai human (minimax_nodes w) with
       | Ok (a, n) =>
           Done a (World (stdin w) (stdout w) n (alphabeta_nodes w))
       | Raise e => Failed (Raised e) w
       end.

Definition call_alphabeta (depth : nat) (board : list string) : io answer :=
  λ w, match alphabeta depth board ai (-2) 2 ai human (alphabeta_nodes w) with
       | Ok (a, n) =>
           Done a (World (stdin w) (stdout w) (minimax_nodes w) n)
       | Raise e => Failed (Raised e) w
       end.

(** [m + 1], which raises [TypeError] when [m] is [None]. *)
Definition plus_one (m : option nat) : io Z :=
  match m with
  | Some i => ret (Z.of_nat i + 1)
  | None => λ w, Failed TypeError w
  end.

(** [board[m] = ai] after [m + 1] has been computed. *)
Definition set_move (board : list string) (m : option nat) (v : string)
  : io (list string) :=
  match m with
  | Some i => lift (setitem board i v)
  | None => λ w, Failed TypeError w
  end.

(** The branch [if current == human] of the loop: [None] stands for
    [continue], [Some board] for the board after the move. *)
Definition human_move (parse_int : string → option Z) (board : list string)
  : io (option (list string)) :=
  line <~ input "Enter your move (1-9): " ;;
  match parse_int line with
  | None =>
      _ <~ print "Please enter a number 1-9." ;;
      ret None
  | Some z =>
      let pos := z - 1 in
      if bool_decide (pos ∈ Z.of_nat <$> moves board) then
        b <~ lift (setitem board (Z.to_nat pos) human) ;;
        ret (Some b)
      else
        _ <~ print "Invalid move. Try again." ;;
        ret None
  end.

(** The branch [else] of the loop. *)
Definition ai_move (depth : nat) (use_pruning : bool) (board : list string)
  : io (option (list string)) :=
  _ <~ print "AI is thinking..." ;;
  _ <~ reset_counters ;;
  m <~ (if use_pruning then
          res <~ call_alphabeta depth board ;;
          k <~ plus_one res.2 ;;
          n <~ (λ w, Done (alphabeta_nodes w) w) ;;
          _ <~ print ("AI chose position " +:+ pretty k +:+
                      " (Alpha-Beta nodes: " +:+ pretty n +:+ ")") ;;
          ret res.2
        else
          res <~ call_minimax depth board ;;
          k <~ plus_one res.2 ;;
          n <~ (λ w, Done (minimax_nodes w) w) ;;
          _ <~ print ("AI chose position " +:+ pretty k +:+
                      " (Minimax nodes: " +:+ pretty n +:+ ")") ;;
          ret res.2) ;;
  b <~ set_move board m ai ;;
  ret (Some b).

(** The body of the [while] loop: the board and the side to move after
    one turn. *)
Definition turn (parse_int : string → option Z) (depth : nat)
    (use_pruning : bool) (board : list string) (current : string)
  : io (list string * string) :=
  moved <~ (if String.eqb current human then human_move parse_int board
            else ai_move depth use_pruning board) ;;
  match moved with
  | None => ret (board, current)
  | Some b =>
      _ <~ print_board b ;;
      ret (b, if String.eqb current human then ai else human)
  end.

(** [while not terminal(board)], unfolded at most [steps] times. *)
Fixpoint play_loop (parse_int : string → option Z) (depth : nat)
    (use_pruning : bool) (steps : nat) (board : list string)
    (current : string) : io (list string) :=
  t <~ lift (terminal board) ;;
  if t then ret board
  else
    match steps with
    | O => λ w, Cut w
    | S steps' =>
        next <~ turn parse_int depth use_pruning board current ;;
        play_loop parse_int depth use_pruning steps' next.1 next.2
    end.

Definition play_game (parse_int : string → option Z)
    (says_yes : string → bool) (depth steps : nat) : io (list string) :=
  let board := replicate 9 " " in
  _ <~ print "Welcome to Tic-Tac-Toe (You are X, AI is O)" ;;
  _ <~ print_board board ;;
  line <~ input "Do you want to go first? (y/n): " ;;
  let first := says_yes line in
  let current := if first then human else ai in
  line <~ input "Use Alpha-Beta pruning? (y/n): " ;;
  let use_pruning := says_yes line in
  board <~ play_loop parse_int depth use_pruning steps board current ;;
  w <~ lift (winner board) ;;
  _ <~ (if is_mark w human then print "🎉 You win!"
        else if is_mark w ai then print "🤖 AI wins!"
        else print "😐 It's a draw!") ;;
  ret board.

End Game.

(** * Notions used to state the properties *)

(** The two sides are two different marks, neither the empty cell. *)
Record valid_sides (me opp : string) : Prop := {
  me_mark : me ≠ EMPTY;
  opp_mark : opp ≠ EMPTY;
  sides_differ : me ≠ opp;
}.

(** The position after [p] has played [m], and the side that then moves. *)
Definition play (b : board) (m : nat) (p : string) : board := <[m := p]> b.

Definition next_player (me opp p : string) : string :=
  if String.eqb p me then opp else me.

(** *** The value of a position in the game

    [can_secure me opp b p v]: with [p] to move on [b], the searching side
    [me] has a way of playing that ends, whatever the opponent plays, on a
    board of utility at least [v].  [can_hold] is the same for the
    opponent: it can keep the utility to at most [v].  The value of the
    position is the [v] that both sides can enforce. *)

Inductive can_secure (me opp : string) : board → string → Z → Prop :=
| secure_end b p v u :
    terminal b = Ok true → utility b me opp = Ok u → v ≤ u →
    can_secure me opp b p v
| secure_own b p v m :
    terminal b = Ok false → p = me → m ∈ moves b →
    can_secure me opp (play b m me) opp v →
    can_secure me opp b p v
| secure_reply b p v :
    terminal b = Ok false → p = opp →
    (∀ m, m ∈ moves b → can_secure me opp (play b m opp) me v) →
    can_secure me opp b p v.

Inductive can_hold (me opp : string) : board → string → Z → Prop :=
| hold_end b p v u :
    terminal b = Ok true → utility b me opp = Ok u → u ≤ v →
    can_hold me opp b p v
| hold_own b p v m :
    terminal b = Ok false → p = opp → m ∈ moves b →
    can_hold me opp (play b m opp) me v →
    can_hold me opp b p v
| hold_reply b p v :
    terminal b = Ok false → p = me →
    (∀ m, m ∈ moves b → can_hold me opp (play b m me) opp v) →
    can_hold me opp b p v.

Definition game_value (me opp : string) (b : board) (p : string) (v : Z)
  : Prop :=
  can_secure me opp b p v ∧ can_hold me opp b p v.

(** *** What the exhaustive search returns, as functions of the position *)

Definition answer_at (me opp : string) (d : nat) (b : board) (p : string)
  : answer :=
  match minimax d b p me opp 0 with
  | Ok (a, _) => a
  | Raise _ => (0, None)
  end.

Definition nodes_at (me opp : string) (d : nat) (b : board) (p : string) : Z :=
  match minimax d b p me opp 0 with
  | Ok (_, k) => k
  | Raise _ => 0
  end.

(** The choice made by the loop of a MAX node, and of a MIN node, from the
    values [cv m] of the moves: the loop without the calls. *)
Fixpoint scan_max (cv : nat → Z) (ms : list nat) (best : answer) : answer :=
  match ms with
  | [] => best
  | m :: ms' =>
      scan_max cv ms' (if cv m >? best.1 then (cv m, Some m) else best)
  end.

Fixpoint scan_min (cv : nat → Z) (ms : list nat) (best : answer) : answer :=
  match ms with
  | [] => best
  | m :: ms' =>
      scan_min cv ms' (if cv m <? best.1 then (cv m, Some m) else best)
  end.

(** Greatest and least of [x] and the values of the moves. *)
Definition peak (cv : nat → Z) (ms : list nat) (x : Z) : Z :=
  foldr (λ m acc, Z.max (cv m) acc) x ms.

Definition trough (cv : nat → Z) (ms : list nat) (x : Z) : Z :=
  foldr (λ m acc, Z.min (cv m) acc) x ms.

Definition sum_over (ck : nat → Z) (ms : list nat) : Z :=
  foldr (λ m acc, ck m + acc) 0 ms.

(** What a search inside the window [(alpha, beta)] tells about the exact
    value: the exact value when it lies inside the window, and otherwise
    a bound on the same side of the window as the exact value. *)
Definition bounded_by (alpha beta exact got : Z) : Prop :=
  (exact ≤ alpha → exact ≤ got ≤ alpha) ∧
  (beta ≤ exact → beta ≤ got ≤ exact) ∧
  (alpha < exact < beta → got = exact).

(** The loop has a move in hand: [best] holds one of the moves [ms] and a
    value of the game. *)
Definition settled (ms : list nat) (best : answer) : Prop :=
  ∃ m, best.2 = Some m ∧ m ∈ ms ∧ -1 ≤ best.1 ≤ 1.

Definition in_range (b : board) (l : nat * nat * nat) : Prop :=
  (l.1.1 < length b ∧ l.1.2 < length b ∧ l.2 < length b)%nat.

(** The side to move is one of the two sides. *)
Definition to_move (me opp p : string) : Prop := p = me ∨ p = opp.

(** A position the search can be called on with [d] calls of stack: nine
    cells, one of the two sides to move, fewer empty cells than [d]. *)
Definition fits (me opp : string) (d : nat) (b : board) (p : string) : Prop :=
  length b = 9%nat ∧ to_move me opp p ∧ (length (moves b) < d)%nat.

(** The answer and the nodes of the position after move [m]. *)
Definition child_answer (me opp : string) (d : nat) (b : board) (p : string)
    (m : nat) : answer :=
  answer_at me opp d (play b m p) (next_player me opp p).

Definition child_nodes (me opp : string) (d : nat) (b : board) (p : string)
    (m : nat) : Z :=
  nodes_at me opp d (play b m p) (next_player me opp p).

(** What one call of [minimax] does, given what the calls below it do;
    [t] and [u] are what [terminal] and [utility] return on the board. *)
Definition node_answer (me opp : string) (d : nat) (b : board) (p : string)
    (t : bool) (u : Z) : answer :=
  if t then (u, None)
  else if String.eqb p me then
    scan_max (λ m, (child_answer me opp d b p m).1) (moves b) (-2, None)
  else
    scan_min (λ m, (child_answer me opp d b p m).1) (moves b) (2, None).

Definition node_count (me opp : string) (d : nat) (b : board) (p : string)
    (t : bool) : Z :=
  if t then 1 else 1 + sum_over (child_nodes me opp d b p) (moves b).

(** What a call of the pruned search on the position [b'] with [q] to move
    does, for every window and counter: it returns a value of the game
    that is [bounded_by] the window and the value [exact] of the
    exhaustive search, after at least one and at most [most] calls. *)
Definition pruned_call (rec : board → string → Z → Z → Z → result (answer * Z))
    (b' : board) (q : string) (exact most : Z) : Prop :=
  ∀ alpha beta n, ∃ r mv k,
    rec b' q alpha beta n = Ok ((r, mv), n + k) ∧
    1 ≤ k ≤ most ∧ -1 ≤ r ≤ 1 ∧
    (alpha < beta → bounded_by alpha beta exact r).

(** A call on list objects [refines] the call on values: started in the
    state [s], it raises the same exception, or returns the same answer
    in a state where its counter [count] has the same value, the other
    counter [other] is as in [s], and every list that [s] has is there
    with the content it has in [s]. *)
Definition refines (count other : Store.state → Z) (s : Store.state)
    (r : result (answer * Z)) (rh : result (answer * Store.state)) : Prop :=
  match r, rh with
  | Ok (a, n), Ok (a', s') =>
      a' = a ∧ count s' = n ∧ other s' = other s ∧
      Store.heap s ⊆ Store.heap s'
  | Raise e, Raise e' => e' = e
  | _, _ => False
  end.

(** A cell of a game between [me] and [opp], and a board of such cells. *)
Definition mark_of (me opp c : string) : Prop := c = EMPTY ∨ c = me ∨ c = opp.

Definition marks (me opp : string) (b : board) : Prop :=
  Forall (mark_of me opp) b.

(** The marks [me] and [opp] written as [me'] and [opp']. *)
Definition rename (me opp me' opp' c : string) : string :=
  if String.eqb c me then me' else if String.eqb c opp then opp' else c.

(** The counter of a result moved by [j]. *)
Definition shift (j : Z) (r : result (answer * Z)) : result (answer * Z) :=
  match r with
  | Ok (a, n) => Ok (a, n + j)
  | Raise e => Raise e
  end.

(** A call that ends with an exception. *)
Definition fails {A : Type} (r : result A) : Prop := ∃ e, r = Raise e.

(** Boards of the scenarios: X on 0 and 1 and O on 3 and 4; and the first
    row taken by X. *)
Definition threat_board : board :=
  ["X"; "X"; " "; "O"; "O"; " "; " "; " "; " "].

Definition won_board : board :=
  ["X"; "X"; "X"; "O"; "O"; " "; " "; " "; " "].

(** The three cells of the line [l] hold the mark [x]. *)
Definition line_taken (b : board) (l : nat * nat * nat) (x : string) : Prop :=
  x ≠ EMPTY ∧ b !! l.1.1 = Some x ∧ b !! l.1.2 = Some x ∧ b !! l.2 = Some x.

(** What [print_board] writes for a row of three cells. *)
Definition row_text (a b c : string) : string :=
  " " +:+ a +:+ " | " +:+ b +:+ " | " +:+ c +:+ " ".

(** A result with the value negated: the same position seen from the
    other side. *)
Definition negate (r : result (answer * Z)) : result (answer * Z) :=
  match r with
  | Ok ((v, m), n) => Ok ((- v, m), n)
  | Raise e => Raise e
  end.

(** The greatest number of calls of a search on a board with [e] empty
    cells: one call, and a search of one cell less after each move. *)
Fixpoint tree_bound (e : nat) : Z :=
  match e with
  | O => 1
  | S e' => 1 + Z.of_nat e * tree_bound e'
  end.

(** *** The display and the game *)

(** The cell [i] of a board, for the text of a row. *)
Definition cell (b : board) (i : nat) : string := default "" (b !! i).

(** What [print_board] writes for a board of nine cells. *)
Definition board_text (b : board) : list Game.event :=
  [ Game.Print Game.NL;
    Game.Print (row_text (cell b 0) (cell b 1) (cell b 2));
    Game.Print "---+---+---";
    Game.Print (row_text (cell b 3) (cell b 4) (cell b 5));
    Game.Print "---+---+---";
    Game.Print (row_text (cell b 6) (cell b 7) (cell b 8));
    Game.Print Game.NL ].

(** How many cells hold the mark [x], and by how many marks the human
    leads. *)
Definition count_mark (x : string) (b : board) : Z :=
  Z.of_nat (length (filter (λ c, c = x) b)).

Definition lead (b : board) : Z :=
  count_mark Game.human b - count_mark Game.ai b.

(** A position of a game begun by [first], with [c] to move: nine cells
    that hold the two marks, placed in turn, from which the program can
    still secure a draw. *)
Definition in_play (first : string) (b : board) (c : string) : Prop :=
  length b = 9%nat ∧ to_move Game.ai Game.human c ∧
  to_move Game.ai Game.human first ∧
  marks Game.ai Game.human b ∧
  lead b = (if String.eqb c first then 0
            else if String.eqb first Game.human then 1 else -1) ∧
  can_secure Game.ai Game.human b c 0.

(** How a turn of the loop can fail: the input has run out, or the
    search has run out of stack. *)
Definition stops (depth : nat) (e : Game.game_exn) (w : Game.world) : Prop :=
  (e = Game.EOFError ∧ Game.stdin w = []) ∨ (depth < 10)%nat.

(** Readers of a line for the examples: a single digit, and the letter
    y. *)
Definition digit (s : string) : option Z :=
  match s with
  | String c "" =>
      let n := nat_of_ascii c in
      if ((48 <=? n) && (n <=? 57))%nat then Some (Z.of_nat (n - 48))
      else None
  | _ => None
  end.

Definition yes (s : string) : bool := String.eqb s "y".

(** The lines typed in a game where the program begins and prunes, and
    the world before it. *)
Definition sample_world : Game.world :=
  Game.World ["n"; "y"; "5"; "x"; "1"; "3"; "4"; "8"; "9"] [] 0 0.

(** * Properties *)

(** ** Sequencing *)

Lemma bind_Ok {A B : Type} (r : result A) (k : A → result B) (a : A) :
  r = Ok a → bind r k = k a.
Proof. by intros ->. Qed.

Lemma bind_inv {A B : Type} (r : result A) (k : A → result B) (c : B) :
  bind r k = Ok c → ∃ a, r = Ok a ∧ k a = Ok c.
Proof. destruct r as [a|e]; simpl; [eauto | discriminate]. Qed.

(** ** The rules on a board of nine cells *)

Lemma getitem_Ok (b : board) (i : nat) :
  (i < length b)%nat → ∃ v, getitem b i = Ok v ∧ b !! i = Some v.
Proof.
  intros Hi. destruct (lookup_lt_is_Some_2 b i Hi) as [v Hv].
  exists v. unfold getitem. by rewrite Hv.
Qed.

Lemma winner_in_total (lines : list (nat * nat * nat)) (b : board) :
  Forall (in_range b) lines → ∃ w, winner_in lines b = Ok w.
Proof.
  induction 1 as [|[[i j] k] rest (Hi & Hj & Hk) _ IH]; simpl in *.
  - by exists None.
  - destruct (getitem_Ok b i Hi) as (x & -> & _).
    destruct (getitem_Ok b j Hj) as (y & -> & _).
    destruct (getitem_Ok b k Hk) as (z & -> & _). simpl.
    destruct (negb _); [|done].
    destruct (String.eqb x y); [|done].
    destruct (String.eqb y z); [|done]. by eexists.
Qed.

Lemma LINES_in_range (b : board) : length b = 9%nat → Forall (in_range b) LINES.
Proof. intros Hb. unfold LINES, in_range. rewrite Hb. repeat constructor; simpl; lia. Qed.

Lemma winner_total (b : board) : length b = 9%nat → ∃ w, winner b = Ok w.
Proof. intros Hb. by apply winner_in_total, LINES_in_range. Qed.

Lemma terminal_total (b : board) : length b = 9%nat → ∃ t, terminal b = Ok t.
Proof.
  intros Hb. destruct (winner_total b Hb) as [w Hw].
  unfold terminal. rewrite Hw. simpl. by eexists.
Qed.

Lemma utility_total (b : board) (me opp : string) :
  length b = 9%nat → ∃ u, utility b me opp = Ok u ∧ -1 ≤ u ≤ 1.
Proof.
  intros Hb. destruct (winner_total b Hb) as [w Hw].
  unfold utility. rewrite Hw. simpl. eexists; split; [done|].
  destruct (is_mark w me), (is_mark w opp); lia.
Qed.

Lemma terminal_false_moves (b : board) : terminal b = Ok false → moves b ≠ [].
Proof.
  unfold terminal. intros H. apply bind_inv in H as (w & _ & H).
  destruct w; [discriminate|]. by destruct (moves b).
Qed.

(** ** Legal moves *)

Lemma elem_of_moves_from (i : nat) (b : board) (m : nat) :
  m ∈ moves_from i b ↔ ∃ j, m = (i + j)%nat ∧ b !! j = Some EMPTY.
Proof.
  revert i. induction b as [|v vs IH]; intros i; simpl.
  - split; [by intros ?%elem_of_nil | by intros (j & _ & ?)].
  - destruct (String.eqb_spec v EMPTY) as [->|Hv].
    + rewrite elem_of_cons, IH. split.
      * intros [->|(j & -> & Hj)]; [exists 0%nat | exists (S j)]; split; (lia || done).
      * intros ([|j] & -> & Hj); [left; lia | right; exists j; split; [lia | done]].
    + rewrite IH. split.
      * intros (j & -> & Hj). exists (S j). split; [lia | done].
      * intros ([|j] & -> & Hj); simpl in Hj; [congruence|].
        exists j. split; [lia | done].
Qed.

Lemma elem_of_moves (b : board) (m : nat) : m ∈ moves b ↔ b !! m = Some EMPTY.
Proof.
  unfold moves. rewrite elem_of_moves_from. split.
  - by intros (j & -> & Hj).
  - intros Hm. by exists m.
Qed.

Lemma moves_lt (b : board) (m : nat) : m ∈ moves b → (m < length b)%nat.
Proof. rewrite elem_of_moves. apply lookup_lt_Some. Qed.

Lemma moves_from_sorted (i : nat) (b : board) :
  StronglySorted lt (moves_from i b).
Proof.
  revert i. induction b as [|v vs IH]; intros i; simpl; [constructor|].
  destruct (String.eqb v EMPTY); [|done].
  constructor; [done|]. apply Forall_forall. intros m Hm.
  apply elem_of_moves_from in Hm as (j & -> & _). lia.
Qed.

Lemma moves_sorted (b : board) : StronglySorted lt (moves b).
Proof. apply moves_from_sorted. Qed.

Lemma moves_from_insert (i : nat) (b : board) (m : nat) (p : string) :
  p ≠ EMPTY → b !! m = Some EMPTY →
  length (moves_from i b) = S (length (moves_from i (<[m := p]> b))).
Proof.
  intros Hp. revert i m. induction b as [|v vs IH]; intros i m Hm; [done|].
  destruct m as [|m]; simpl in *.
  - injection Hm as ->. rewrite String.eqb_refl.
    by destruct (String.eqb_spec p EMPTY).
  - destruct (String.eqb v EMPTY); simpl; by rewrite (IH (S i) m Hm).
Qed.

Lemma moves_insert (b : board) (m : nat) (p : string) :
  p ≠ EMPTY → m ∈ moves b →
  length (moves b) = S (length (moves (<[m := p]> b))).
Proof. intros Hp Hm. by apply moves_from_insert, elem_of_moves. Qed.

Lemma setitem_Ok (b : board) (m : nat) (p : string) :
  m ∈ moves b → setitem b m p = Ok (play b m p).
Proof.
  intros Hm%moves_lt. unfold setitem, play. by rewrite decide_True.
Qed.

Lemma length_play (b : board) (m : nat) (p : string) :
  length (play b m p) = length b.
Proof. apply length_insert. Qed.

(** ** The choice of the loops *)

Lemma peak_max (cv : nat → Z) (ms : list nat) (x y : Z) :
  peak cv ms (Z.max x y) = Z.max y (peak cv ms x).
Proof. induction ms as [|m ms IH]; simpl; [lia|]. rewrite IH. lia. Qed.

Lemma trough_min (cv : nat → Z) (ms : list nat) (x y : Z) :
  trough cv ms (Z.min x y) = Z.min y (trough cv ms x).
Proof. induction ms as [|m ms IH]; simpl; [lia|]. rewrite IH. lia. Qed.

Lemma peak_ge (cv : nat → Z) (ms : list nat) (x : Z) : x ≤ peak cv ms x.
Proof. induction ms as [|m ms IH]; simpl; lia. Qed.

Lemma trough_le (cv : nat → Z) (ms : list nat) (x : Z) : trough cv ms x ≤ x.
Proof. induction ms as [|m ms IH]; simpl; lia. Qed.

Lemma sum_over_mono (ck ck' : nat → Z) (ms : list nat) :
  (∀ m, m ∈ ms → ck m ≤ ck' m) → sum_over ck ms ≤ sum_over ck' ms.
Proof.
  induction ms as [|m ms IH]; intros H; simpl; [lia|].
  pose proof (H m ltac:(left)). 
  assert (sum_over ck ms ≤ sum_over ck' ms) by (apply IH; intros; apply H; by right).
  lia.
Qed.

Lemma sum_over_nonneg (ck : nat → Z) (ms : list nat) :
  (∀ m, m ∈ ms → 0 ≤ ck m) → 0 ≤ sum_over ck ms.
Proof.
  induction ms as [|m ms IH]; intros H; simpl; [lia|].
  pose proof (H m ltac:(left)).
  assert (0 ≤ sum_over ck ms) by (apply IH; intros; apply H; by right).
  lia.
Qed.

Lemma scan_max_fst (cv : nat → Z) (ms : list nat) (best : answer) :
  (scan_max cv ms best).1 = peak cv ms best.1.
Proof.
  revert best. induction ms as [|m ms IH]; intros best; simpl; [done|].
  rewrite IH. destruct (Z.gtb_spec (cv m) best.1); simpl.
  - rewrite <- (peak_max cv ms best.1 (cv m)). f_equal. lia.
  - rewrite <- (peak_max cv ms best.1 (cv m)). f_equal. lia.
Qed.

Lemma scan_min_fst (cv : nat → Z) (ms : list nat) (best : answer) :
  (scan_min cv ms best).1 = trough cv ms best.1.
Proof.
  revert best. induction ms as [|m ms IH]; intros best; simpl; [done|].
  rewrite IH. destruct (Z.ltb_spec (cv m) best.1); simpl.
  - rewrite <- (trough_min cv ms best.1 (cv m)). f_equal. lia.
  - rewrite <- (trough_min cv ms best.1 (cv m)). f_equal. lia.
Qed.

(** Either no move beat the initial [best], or the result is the first
    move of greatest value, and that value is above the initial one. *)
Lemma scan_max_spec (cv : nat → Z) (ms : list nat) (best : answer) :
  (scan_max cv ms best = best ∧ ∀ m, m ∈ ms → cv m ≤ best.1) ∨
  (∃ l1 m l2, ms = l1 ++ m :: l2 ∧ scan_max cv ms best = (cv m, Some m) ∧
     best.1 < cv m ∧ (∀ m', m' ∈ l1 → cv m' < cv m) ∧
     (∀ m', m' ∈ l2 → cv m' ≤ cv m)).
Proof.
  revert best. induction ms as [|m ms IH]; intros best; simpl.
  - left. split; [done|]. by intros m ?%elem_of_nil.
  - destruct (Z.gtb_spec (cv m) best.1) as [Hgt|Hle].
    + destruct (IH (cv m, Some m)) as [[-> Hall]|(l1 & m0 & l2 & -> & -> & Hlt & H1 & H2)].
      * right. exists [], m, ms. simpl in *. repeat split; try done; try lia.
        by intros m' ?%elem_of_nil.
      * right. exists (m :: l1), m0, l2. simpl in *. repeat split; try done; try lia.
        intros m' [->|?]%elem_of_cons; [lia | by apply H1].
    + destruct (IH best) as [[-> Hall]|(l1 & m0 & l2 & -> & -> & Hlt & H1 & H2)].
      * left. split; [done|]. intros m' [->|?]%elem_of_cons; [lia | by apply Hall].
      * right. exists (m :: l1), m0, l2. simpl. repeat split; try done.
        intros m' [->|?]%elem_of_cons; [lia | by apply H1].
Qed.

Lemma scan_min_spec (cv : nat → Z) (ms : list nat) (best : answer) :
  (scan_min cv ms best = best ∧ ∀ m, m ∈ ms → best.1 ≤ cv m) ∨
  (∃ l1 m l2, ms = l1 ++ m :: l2 ∧ scan_min cv ms best = (cv m, Some m) ∧
     cv m < best.1 ∧ (∀ m', m' ∈ l1 → cv m < cv m') ∧
     (∀ m', m' ∈ l2 → cv m ≤ cv m')).
Proof.
  revert best. induction ms as [|m ms IH]; intros best; simpl.
  - left. split; [done|]. by intros m ?%elem_of_nil.
  - destruct (Z.ltb_spec (cv m) best.1) as [Hgt|Hle].
    + destruct (IH (cv m, Some m)) as [[-> Hall]|(l1 & m0 & l2 & -> & -> & Hlt & H1 & H2)].
      * right. exists [], m, ms. simpl in *. repeat split; try done; try lia.
        by intros m' ?%elem_of_nil.
      * right. exists (m :: l1), m0, l2. simpl in *. repeat split; try done; try lia.
        intros m' [->|?]%elem_of_cons; [lia | by apply H1].
    + destruct (IH best) as [[-> Hall]|(l1 & m0 & l2 & -> & -> & Hlt & H1 & H2)].
      * left. split; [done|]. intros m' [->|?]%elem_of_cons; [lia | by apply Hall].
      * right. exists (m :: l1), m0, l2. simpl. repeat split; try done.
        intros m' [->|?]%elem_of_cons; [lia | by apply H1].
Qed.

(** ** The exhaustive search *)

Lemma minimax_S (d : nat) (b : board) (p me opp : string) (n : Z) :
  minimax (S d) b p me opp n =
    (t <- terminal b ;;
     if t then u <- utility b me opp ;; Ok ((u, None), n + 1)
     else minimax_loop (λ b2 q k, minimax d b2 q me opp k) b p me opp
            (moves b) (if String.eqb p me then -2 else 2) None (n + 1)).
Proof. reflexivity. Qed.

Lemma alphabeta_S (d : nat) (b : board) (p : string) (alpha beta : Z)
    (me opp : string) (n : Z) :
  alphabeta (S d) b p alpha beta me opp n =
    (t <- terminal b ;;
     if t then u <- utility b me opp ;; Ok ((u, None), n + 1)
     else if String.eqb p me then
       alphabeta_max_loop (λ b2 q a c k, alphabeta d b2 q a c me opp k)
         b p opp (moves b) (-2, None) alpha beta (n + 1)
     else
       alphabeta_min_loop (λ b2 q a c k, alphabeta d b2 q a c me opp k)
         b p me (moves b) (2, None) alpha beta (n + 1)).
Proof. reflexivity. Qed.

Section Sides.
Variables me opp : string.
Hypothesis me_not_empty : me ≠ EMPTY.
Hypothesis opp_not_empty : opp ≠ EMPTY.
Hypothesis me_not_opp : me ≠ opp.

Lemma to_move_next (p : string) : to_move me opp (next_player me opp p).
Proof. unfold next_player, to_move. destruct (String.eqb p me); auto. Qed.

Lemma to_move_not_empty (p : string) : to_move me opp p → p ≠ EMPTY.
Proof. by intros [->| ->]. Qed.

(** The tests [player == me] and [player == opp] of the loops. *)
Lemma to_move_tests (p : string) :
  to_move me opp p →
  (p = me ∧ String.eqb p me = true ∧ String.eqb p opp = false) ∨
  (p = opp ∧ String.eqb p me = false ∧ String.eqb p opp = true).
Proof.
  intros [->| ->]; [left|right]; rewrite String.eqb_refl;
    split_and!; try done; apply String.eqb_neq; congruence.
Qed.

(** The loop of [minimax] at a MAX node makes the calls and the choice
    of [scan_max]; [all] are the moves of the board, [ms] those still to
    be tried. *)
Lemma minimax_loop_max rec (b : board) (ca : nat → answer)
    (ck : nat → Z) (ms : list nat) (best : answer) (n : Z) :
  ms ⊆ moves b →
  (∀ m k, m ∈ moves b → rec (play b m me) opp k = Ok (ca m, k + ck m)) →
  minimax_loop rec b me me opp ms best.1 best.2 n =
    Ok (scan_max (λ m, (ca m).1) ms best, n + sum_over ck ms).
Proof.
  intros Hms Hrec. revert best n Hms.
  induction ms as [|m ms IH]; intros [bv bm] n Hms; simpl.
  - do 2 f_equal. lia.
  - assert (m ∈ moves b) as Hm by (apply Hms; left).
    rewrite (setitem_Ok b m me Hm). simpl.
    rewrite String.eqb_refl. rewrite (Hrec m n Hm). simpl.
    destruct (ca m) as [v mv] eqn:Hca. simpl.
    assert (ms ⊆ moves b) as Hms' by (intros x Hx; apply Hms; by right).
    assert (String.eqb me opp = false) as -> by by apply String.eqb_neq.
    destruct (Z.gtb_spec v bv); simpl.
    + rewrite (IH (v, Some m)) by done. do 2 f_equal. lia.
    + rewrite (IH (bv, bm)) by done. do 2 f_equal. lia.
Qed.

Lemma minimax_loop_min rec (b : board) (ca : nat → answer)
    (ck : nat → Z) (ms : list nat) (best : answer) (n : Z) :
  ms ⊆ moves b →
  (∀ m k, m ∈ moves b → rec (play b m opp) me k = Ok (ca m, k + ck m)) →
  minimax_loop rec b opp me opp ms best.1 best.2 n =
    Ok (scan_min (λ m, (ca m).1) ms best, n + sum_over ck ms).
Proof.
  intros Hms Hrec. revert best n Hms.
  induction ms as [|m ms IH]; intros [bv bm] n Hms; simpl.
  - do 2 f_equal. lia.
  - assert (m ∈ moves b) as Hm by (apply Hms; left).
    rewrite (setitem_Ok b m opp Hm). simpl.
    rewrite String.eqb_refl.
    assert (String.eqb opp me = false) as -> by by apply String.eqb_neq.
    rewrite (Hrec m n Hm). simpl.
    destruct (ca m) as [v mv] eqn:Hca. simpl.
    assert (ms ⊆ moves b) as Hms' by (intros x Hx; apply Hms; by right).
    destruct (Z.ltb_spec v bv); simpl.
    + rewrite (IH (v, Some m)) by done. do 2 f_equal. lia.
    + rewrite (IH (bv, bm)) by done. do 2 f_equal. lia.
Qed.

Lemma fits_play (d : nat) (b : board) (p : string) (m : nat) :
  fits me opp (S d) b p → m ∈ moves b →
  fits me opp d (play b m p) (next_player me opp p).
Proof.
  intros (Hb & Hp & Hd) Hm. split; [by rewrite length_play|].
  split; [apply to_move_next|].
  pose proof (moves_insert b m p (to_move_not_empty p Hp) Hm) as Hlen.
  unfold play. lia.
Qed.

Lemma minimax_step (d : nat) (b : board) (p : string) (t : bool) (u : Z)
    (n : Z) :
  (∀ b' p' k, fits me opp d b' p' →
     minimax d b' p' me opp k =
       Ok (answer_at me opp d b' p', k + nodes_at me opp d b' p')) →
  fits me opp (S d) b p → terminal b = Ok t → utility b me opp = Ok u →
  minimax (S d) b p me opp n =
    Ok (node_answer me opp d b p t u, n + node_count me opp d b p t).
Proof.
  intros IH Hfit Ht Hu. rewrite minimax_S, Ht. simpl.
  unfold node_answer, node_count. destruct t.
  { by rewrite Hu. }
  destruct (to_move_tests p) as [(-> & Hme & Ho)|(-> & Hme & Ho)];
    [apply Hfit|..]; rewrite Hme.
  - rewrite (minimax_loop_max _ b (child_answer me opp d b me) (child_nodes me opp d b me)
               (moves b) (-2, None)); [do 2 f_equal; lia|done|].
    intros m k Hm. pose proof (fits_play d b me m Hfit Hm) as Hc.
    unfold child_answer, child_nodes. unfold next_player in *.
    rewrite Hme in *. simpl. apply IH, Hc.
  - rewrite (minimax_loop_min _ b (child_answer me opp d b opp) (child_nodes me opp d b opp)
               (moves b) (2, None)); [do 2 f_equal; lia|done|].
    intros m k Hm. pose proof (fits_play d b opp m Hfit Hm) as Hc.
    unfold child_answer, child_nodes. unfold next_player in *.
    rewrite Hme in *. simpl. apply IH, Hc.
Qed.

(** The search returns, its answer does not depend on the counter, and
    the counter grows by the number of calls. *)
Lemma minimax_returns (d : nat) (b : board) (p : string) (n : Z) :
  fits me opp d b p →
  minimax d b p me opp n =
    Ok (answer_at me opp d b p, n + nodes_at me opp d b p).
Proof.
  revert b p n. induction d as [|d IH]; intros b p n Hfit.
  { destruct Hfit as (_ & _ & ?). lia. }
  destruct (terminal_total b) as [t Ht]; [apply Hfit|].
  destruct (utility_total b me opp) as (u & Hu & _); [apply Hfit|].
  unfold answer_at, nodes_at.
  rewrite (minimax_step d b p t u 0 IH Hfit Ht Hu).
  by rewrite (minimax_step d b p t u n IH Hfit Ht Hu).
Qed.

Lemma answer_at_S (d : nat) (b : board) (p : string) (t : bool) (u : Z) :
  fits me opp (S d) b p → terminal b = Ok t → utility b me opp = Ok u →
  answer_at me opp (S d) b p = node_answer me opp d b p t u.
Proof.
  intros Hfit Ht Hu. unfold answer_at at 1.
  by rewrite (minimax_step d b p t u 0 (λ b' p' k, minimax_returns d b' p' k)
                Hfit Ht Hu).
Qed.

Lemma nodes_at_S (d : nat) (b : board) (p : string) (t : bool) :
  fits me opp (S d) b p → terminal b = Ok t →
  nodes_at me opp (S d) b p = node_count me opp d b p t.
Proof.
  intros Hfit Ht.
  destruct (utility_total b me opp) as (u & Hu & _); [apply Hfit|].
  unfold nodes_at at 1.
  rewrite (minimax_step d b p t u 0 (λ b' p' k, minimax_returns d b' p' k)
                Hfit Ht Hu). lia.
Qed.

(** The answer of the exhaustive search is a value of the game; its
    move is [None] on a terminal board and a legal move otherwise. *)
Lemma answer_at_range (d : nat) (b : board) (p : string) :
  fits me opp d b p →
  -1 ≤ (answer_at me opp d b p).1 ≤ 1 ∧ 1 ≤ nodes_at me opp d b p ∧
  ∃ t, terminal b = Ok t ∧
    if t then (answer_at me opp d b p).2 = None
    else ∃ m, (answer_at me opp d b p).2 = Some m ∧ m ∈ moves b.
Proof.
  revert b p. induction d as [|d IH]; intros b p Hfit.
  { destruct Hfit as (_ & _ & ?). lia. }
  destruct (terminal_total b) as [t Ht]; [apply Hfit|].
  destruct (utility_total b me opp) as (u & Hu & Hrange); [apply Hfit|].
  rewrite (answer_at_S d b p t u Hfit Ht Hu), (nodes_at_S d b p t Hfit Ht).
  assert (∀ m, m ∈ moves b →
            -1 ≤ (child_answer me opp d b p m).1 ≤ 1 ∧
            1 ≤ child_nodes me opp d b p m) as Hc.
  { intros m Hm. destruct (IH _ _ (fits_play d b p m Hfit Hm)) as (? & ? & _).
    done. }
  split; [|split].
  - unfold node_answer. destruct t; [simpl; lia|].
    pose proof (terminal_false_moves b Ht) as Hne.
    destruct (String.eqb p me).
    + destruct (scan_max_spec (λ m, (child_answer me opp d b p m).1)
                  (moves b) (-2, None))
        as [[_ Hall]|(l1 & m & l2 & Hms & -> & _)].
      * destruct (moves b) as [|m ms]; [done|].
        pose proof (Hall m ltac:(left)). pose proof (Hc m ltac:(left)).
        simpl in *. lia.
      * apply Hc. rewrite Hms, elem_of_app, elem_of_cons; auto.
    + destruct (scan_min_spec (λ m, (child_answer me opp d b p m).1)
                  (moves b) (2, None))
        as [[_ Hall]|(l1 & m & l2 & Hms & -> & _)].
      * destruct (moves b) as [|m ms]; [done|].
        pose proof (Hall m ltac:(left)). pose proof (Hc m ltac:(left)).
        simpl in *. lia.
      * apply Hc. rewrite Hms, elem_of_app, elem_of_cons; auto.
  - unfold node_count. destruct t; [lia|].
    pose proof (sum_over_nonneg (child_nodes me opp d b p) (moves b)) as Hs.
    assert (0 ≤ sum_over (child_nodes me opp d b p) (moves b)); [|lia].
    apply Hs. intros m Hm. destruct (Hc m Hm). lia.
  - exists t. split; [done|]. unfold node_answer. destruct t; [done|].
    pose proof (terminal_false_moves b Ht) as Hne.
    destruct (String.eqb p me).
    + destruct (scan_max_spec (λ m, (child_answer me opp d b p m).1)
                  (moves b) (-2, None))
        as [[_ Hall]|(l1 & m & l2 & Hms & -> & _)].
      * destruct (moves b) as [|m ms]; [done|].
        pose proof (Hall m ltac:(left)). pose proof (Hc m ltac:(left)).
        simpl in *. lia.
      * exists m. split; [done|]. rewrite Hms, elem_of_app, elem_of_cons; auto.
    + destruct (scan_min_spec (λ m, (child_answer me opp d b p m).1)
                  (moves b) (2, None))
        as [[_ Hall]|(l1 & m & l2 & Hms & -> & _)].
      * destruct (moves b) as [|m ms]; [done|].
        pose proof (Hall m ltac:(left)). pose proof (Hc m ltac:(left)).
        simpl in *. lia.
      * exists m. split; [done|]. rewrite Hms, elem_of_app, elem_of_cons; auto.
Qed.

(** ** The pruned search *)

(** The loop of a MAX node.  Its value is [bounded_by] the window and
    the greatest of the exact values; it visits no more than the
    exhaustive loop; and it ends with a move in hand. *)
Lemma alphabeta_max_loop_spec rec (b : board) (cv ck : nat → Z)
    (ms : list nat) (best : answer) (alpha beta n : Z) :
  (∀ m, m ∈ moves b → pruned_call rec (play b m me) opp (cv m) (ck m)) →
  ms ⊆ moves b →
  (best.1 < -1 ∧ ms ≠ []) ∨ settled (moves b) best →
  ∃ res k,
    alphabeta_max_loop rec b me opp ms best alpha beta n = Ok (res, n + k) ∧
    0 ≤ k ≤ sum_over ck ms ∧
    settled (moves b) res ∧
    (alpha < beta → bounded_by alpha beta (peak cv ms best.1) res.1).
Proof.
  intros Hrec. revert best alpha n.
  induction ms as [|m ms IH]; intros best alpha n Hms Hpre; simpl.
  - exists best, 0. split_and!; try lia.
    + do 2 f_equal. lia.
    + by destruct Hpre as [[_ ?]|?].
    + intros _. unfold bounded_by. lia.
  - assert (m ∈ moves b) as Hm by (apply Hms; left).
    assert (ms ⊆ moves b) as Hms' by (intros x Hx; apply Hms; by right).
    rewrite (setitem_Ok b m me Hm). simpl.
    destruct (Hrec m Hm alpha beta n) as (r & mv & k & -> & Hk & Hr & Hb).
    simpl.
    set (best' := if r >? best.1 then (r, Some m) else best).
    assert (best'.1 = Z.max best.1 r) as Hbest'.
    { unfold best'. destruct (Z.gtb_spec r best.1); simpl; lia. }
    assert (settled (moves b) best') as Hset.
    { unfold best'. destruct (Z.gtb_spec r best.1) as [Hgt|Hle].
      - exists m. simpl. split_and!; (done || lia).
      - destruct Hpre as [[? _]|?]; [lia | done]. }
    pose proof (peak_ge cv ms best.1) as Hpeak.
    destruct (Z.geb_spec (Z.max alpha r) beta) as [Hcut|Hgo].
    + exists best', k. split_and!; try done; try lia.
      * pose proof (sum_over_nonneg ck ms) as Hs.
        assert (0 ≤ sum_over ck ms); [|lia].
        apply Hs. intros m' Hm'.
        destruct (Hrec m' (Hms' m' Hm') 0 0 0) as (_ & _ & ? & _ & ? & _). lia.
      * intros Hab. specialize (Hb Hab). rewrite Hbest'.
        unfold bounded_by in *. lia.
    + destruct (IH best' (Z.max alpha r) (n + k) Hms' (or_intror Hset))
        as (res & k' & -> & Hk' & Hres & Hb').
      exists res, (k + k'). split_and!; try done; try lia.
      * do 2 f_equal. lia.
      * intros Hab. specialize (Hb Hab). specialize (Hb' Hgo).
        rewrite Hbest', peak_max in Hb'.
        unfold bounded_by in *. lia.
Qed.

Lemma alphabeta_min_loop_spec rec (b : board) (cv ck : nat → Z)
    (ms : list nat) (best : answer) (alpha beta n : Z) :
  (∀ m, m ∈ moves b → pruned_call rec (play b m opp) me (cv m) (ck m)) →
  ms ⊆ moves b →
  (1 < best.1 ∧ ms ≠ []) ∨ settled (moves b) best →
  ∃ res k,
    alphabeta_min_loop rec b opp me ms best alpha beta n = Ok (res, n + k) ∧
    0 ≤ k ≤ sum_over ck ms ∧
    settled (moves b) res ∧
    (alpha < beta → bounded_by alpha beta (trough cv ms best.1) res.1).
Proof.
  intros Hrec. revert best beta n.
  induction ms as [|m ms IH]; intros best beta n Hms Hpre; simpl.
  - exists best, 0. split_and!; try lia.
    + do 2 f_equal. lia.
    + by destruct Hpre as [[_ ?]|?].
    + intros _. unfold bounded_by. lia.
  - assert (m ∈ moves b) as Hm by (apply Hms; left).
    assert (ms ⊆ moves b) as Hms' by (intros x Hx; apply Hms; by right).
    rewrite (setitem_Ok b m opp Hm). simpl.
    destruct (Hrec m Hm alpha beta n) as (r & mv & k & -> & Hk & Hr & Hb).
    simpl.
    set (best' := if r <? best.1 then (r, Some m) else best).
    assert (best'.1 = Z.min best.1 r) as Hbest'.
    { unfold best'. destruct (Z.ltb_spec r best.1); simpl; lia. }
    assert (settled (moves b) best') as Hset.
    { unfold best'. destruct (Z.ltb_spec r best.1) as [Hgt|Hle].
      - exists m. simpl. split_and!; (done || lia).
      - destruct Hpre as [[? _]|?]; [lia | done]. }
    pose proof (trough_le cv ms best.1) as Htrough.
    destruct (Z.geb_spec alpha (Z.min beta r)) as [Hcut|Hgo].
    + exists best', k. split_and!; try done; try lia.
      * pose proof (sum_over_nonneg ck ms) as Hs.
        assert (0 ≤ sum_over ck ms); [|lia].
        apply Hs. intros m' Hm'.
        destruct (Hrec m' (Hms' m' Hm') 0 0 0) as (_ & _ & ? & _ & ? & _). lia.
      * intros Hab. specialize (Hb Hab). rewrite Hbest'.
        unfold bounded_by in *. lia.
    + destruct (IH best' (Z.min beta r) (n + k) Hms' (or_intror Hset))
        as (res & k' & -> & Hk' & Hres & Hb').
      exists res, (k + k'). split_and!; try done; try lia.
      * do 2 f_equal. lia.
      * intros Hab. specialize (Hb Hab). specialize (Hb' Hgo).
        rewrite Hbest', trough_min in Hb'.
        unfold bounded_by in *. lia.
Qed.

(** With the window open above every value, and [alpha] not above the
    value in hand, the loop of a MAX node makes the choice of the
    exhaustive loop. *)
Lemma alphabeta_max_loop_exact rec (b : board) (cv ck : nat → Z)
    (ms : list nat) (best : answer) (alpha beta n : Z) :
  (∀ m, m ∈ moves b → pruned_call rec (play b m me) opp (cv m) (ck m)) →
  ms ⊆ moves b →
  alpha ≤ best.1 < beta → (∀ m, m ∈ ms → cv m < beta) →
  ∃ k, alphabeta_max_loop rec b me opp ms best alpha beta n =
         Ok (scan_max cv ms best, n + k).
Proof.
  intros Hrec. revert best alpha n.
  induction ms as [|m ms IH]; intros best alpha n Hms Hwin Hcv; simpl.
  - exists 0. do 2 f_equal. lia.
  - assert (m ∈ moves b) as Hm by (apply Hms; left).
    assert (ms ⊆ moves b) as Hms' by (intros x Hx; apply Hms; by right).
    rewrite (setitem_Ok b m me Hm). simpl.
    destruct (Hrec m Hm alpha beta n) as (r & mv & k & -> & Hk & Hr & Hb).
    simpl. pose proof (Hcv m ltac:(left)) as Hcvm.
    assert (bounded_by alpha beta (cv m) r) as (Hb1 & Hb2 & Hb3)
      by (apply Hb; lia).
    assert ((r >? best.1) = (cv m >? best.1) ∧
            (best.1 < cv m → r = cv m)) as [Htest Hsame].
    { destruct (Z.gtb_spec r best.1), (Z.gtb_spec (cv m) best.1);
        split; (done || lia). }
    rewrite Htest.
    destruct (Z.gtb_spec (cv m) best.1) as [Hgt|Hle].
    + rewrite (Hsame Hgt) in *.
      destruct (Z.geb_spec (Z.max alpha (cv m)) beta) as [Hcut|Hgo]; [lia|].
      destruct (IH (cv m, Some m) (Z.max alpha (cv m)) (n + k) Hms')
        as [k' ->]; [simpl; lia | intros; apply Hcv; by right |].
      exists (k + k'). do 2 f_equal. lia.
    + destruct (Z.geb_spec (Z.max alpha r) beta) as [Hcut|Hgo]; [lia|].
      destruct (IH best (Z.max alpha r) (n + k) Hms')
        as [k' ->]; [lia | intros; apply Hcv; by right |].
      exists (k + k'). do 2 f_equal. lia.
Qed.

Lemma alphabeta_min_loop_exact rec (b : board) (cv ck : nat → Z)
    (ms : list nat) (best : answer) (alpha beta n : Z) :
  (∀ m, m ∈ moves b → pruned_call rec (play b m opp) me (cv m) (ck m)) →
  ms ⊆ moves b →
  alpha < best.1 ≤ beta → (∀ m, m ∈ ms → alpha < cv m) →
  ∃ k, alphabeta_min_loop rec b opp me ms best alpha beta n =
         Ok (scan_min cv ms best, n + k).
Proof.
  intros Hrec. revert best beta n.
  induction ms as [|m ms IH]; intros best beta n Hms Hwin Hcv; simpl.
  - exists 0. do 2 f_equal. lia.
  - assert (m ∈ moves b) as Hm by (apply Hms; left).
    assert (ms ⊆ moves b) as Hms' by (intros x Hx; apply Hms; by right).
    rewrite (setitem_Ok b m opp Hm). simpl.
    destruct (Hrec m Hm alpha beta n) as (r & mv & k & -> & Hk & Hr & Hb).
    simpl. pose proof (Hcv m ltac:(left)) as Hcvm.
    assert (bounded_by alpha beta (cv m) r) as (Hb1 & Hb2 & Hb3)
      by (apply Hb; lia).
    assert ((r <? best.1) = (cv m <? best.1) ∧
            (cv m < best.1 → r = cv m)) as [Htest Hsame].
    { destruct (Z.ltb_spec r best.1), (Z.ltb_spec (cv m) best.1);
        split; (done || lia). }
    rewrite Htest.
    destruct (Z.ltb_spec (cv m) best.1) as [Hgt|Hle].
    + rewrite (Hsame Hgt) in *.
      destruct (Z.geb_spec alpha (Z.min beta (cv m))) as [Hcut|Hgo]; [lia|].
      destruct (IH (cv m, Some m) (Z.min beta (cv m)) (n + k) Hms')
        as [k' ->]; [simpl; lia | intros; apply Hcv; by right |].
      exists (k + k'). do 2 f_equal. lia.
    + destruct (Z.geb_spec alpha (Z.min beta r)) as [Hcut|Hgo]; [lia|].
      destruct (IH best (Z.min beta r) (n + k) Hms')
        as [k' ->]; [lia | intros; apply Hcv; by right |].
      exists (k + k'). do 2 f_equal. lia.
Qed.

(** Every call of the pruned search returns a value of the game bounded
    by its window and the value of the exhaustive search, with a move
    that is [None] on a terminal board and legal otherwise, after no
    more calls than the exhaustive search makes. *)
Lemma alphabeta_spec (d : nat) (b : board) (p : string) (alpha beta n : Z) :
  fits me opp d b p →
  ∃ r mv k,
    alphabeta d b p alpha beta me opp n = Ok ((r, mv), n + k) ∧
    1 ≤ k ≤ nodes_at me opp d b p ∧ -1 ≤ r ≤ 1 ∧
    (alpha < beta → bounded_by alpha beta (answer_at me opp d b p).1 r) ∧
    ∃ t, terminal b = Ok t ∧
      if t then mv = None else ∃ m, mv = Some m ∧ m ∈ moves b.
Proof.
  revert b p alpha beta n. induction d as [|d IH]; intros b p alpha beta n Hfit.
  { destruct Hfit as (_ & _ & ?). lia. }
  destruct (terminal_total b) as [t Ht]; [apply Hfit|].
  destruct (utility_total b me opp) as (u & Hu & Hrange); [apply Hfit|].
  rewrite alphabeta_S, Ht, (answer_at_S d b p t u Hfit Ht Hu),
    (nodes_at_S d b p t Hfit Ht).
  unfold node_answer, node_count. simpl. destruct t.
  { rewrite Hu. simpl. exists u, None, 1. split_and!; try done; try lia.
    by exists true. }
  pose proof (terminal_false_moves b Ht) as Hne.
  assert (∀ m, m ∈ moves b →
            pruned_call (λ b2 q a c k, alphabeta d b2 q a c me opp k)
              (play b m p) (next_player me opp p)
              (child_answer me opp d b p m).1 (child_nodes me opp d b p m))
    as Hrec.
  { intros m Hm a c k.
    destruct (IH _ _ a c k (fits_play d b p m Hfit Hm))
      as (r & mv & j & -> & ? & ? & ? & _).
    by exists r, mv, j. }
  destruct (to_move_tests p) as [(-> & Hme & Ho)|(-> & Hme & Ho)];
    [apply Hfit|..]; rewrite Hme; unfold next_player in Hrec;
    rewrite Hme in Hrec.
  - destruct (alphabeta_max_loop_spec _ b _ _ (moves b) (-2, None)
                alpha beta (n + 1) Hrec)
      as ([r mv] & k & -> & Hk & (m & Hmv & Hm & Hr) & Hb);
      [done | left; simpl; split; [lia | done] |].
    simpl in *. exists r, mv, (1 + k). split_and!; try done; try lia.
    + do 2 f_equal. lia.
    + by rewrite scan_max_fst.
    + exists false. split; [done|]. by exists m.
  - destruct (alphabeta_min_loop_spec _ b _ _ (moves b) (2, None)
                alpha beta (n + 1) Hrec)
      as ([r mv] & k & -> & Hk & (m & Hmv & Hm & Hr) & Hb);
      [done | left; simpl; split; [lia | done] |].
    simpl in *. exists r, mv, (1 + k). split_and!; try done; try lia.
    + do 2 f_equal. lia.
    + by rewrite scan_min_fst.
    + exists false. split; [done|]. by exists m.
Qed.

(** Called with the whole range of values as window, the pruned search
    returns the answer of the exhaustive search. *)
Lemma alphabeta_exact (d : nat) (b : board) (p : string) (alpha beta n : Z) :
  fits me opp d b p → alpha ≤ -2 → 2 ≤ beta →
  ∃ k, alphabeta d b p alpha beta me opp n =
         Ok (answer_at me opp d b p, n + k).
Proof.
  intros Hfit Ha Hb. destruct d as [|d].
  { destruct Hfit as (_ & _ & ?). lia. }
  destruct (terminal_total b) as [t Ht]; [apply Hfit|].
  destruct (utility_total b me opp) as (u & Hu & Hrange); [apply Hfit|].
  rewrite alphabeta_S, Ht, (answer_at_S d b p t u Hfit Ht Hu).
  unfold node_answer. simpl. destruct t.
  { rewrite Hu. simpl. by exists 1. }
  assert (∀ m, m ∈ moves b →
            pruned_call (λ b2 q a c k, alphabeta d b2 q a c me opp k)
              (play b m p) (next_player me opp p)
              (child_answer me opp d b p m).1 (child_nodes me opp d b p m))
    as Hrec.
  { intros m Hm a c k.
    destruct (alphabeta_spec d _ _ a c k (fits_play d b p m Hfit Hm))
      as (r & mv & j & -> & ? & ? & ? & _).
    by exists r, mv, j. }
  assert (∀ m, m ∈ moves b → -1 ≤ (child_answer me opp d b p m).1 ≤ 1) as Hcv.
  { intros m Hm.
    by destruct (answer_at_range d _ _ (fits_play d b p m Hfit Hm)) as [? _]. }
  destruct (to_move_tests p) as [(-> & Hme & Ho)|(-> & Hme & Ho)];
    [apply Hfit|..]; rewrite Hme; unfold next_player in Hrec;
    rewrite Hme in Hrec.
  - destruct (alphabeta_max_loop_exact _ b _ _ (moves b) (-2, None)
                alpha beta (n + 1) Hrec) as [k ->];
      [done | simpl; lia | intros m Hm; specialize (Hcv m Hm); lia |].
    exists (1 + k). do 2 f_equal. lia.
  - destruct (alphabeta_min_loop_exact _ b _ _ (moves b) (2, None)
                alpha beta (n + 1) Hrec) as [k ->];
      [done | simpl; lia | intros m Hm; specialize (Hcv m Hm); lia |].
    exists (1 + k). do 2 f_equal. lia.
Qed.

(** ** The value of the game *)

Lemma can_secure_mono (b : board) (p : string) (v v' : Z) :
  can_secure me opp b p v → v' ≤ v → can_secure me opp b p v'.
Proof.
  induction 1 as [b p v u Ht Hu Hle|b p v m Ht Hp Hm Hc IH|b p v Ht Hp Hall IH];
    intros Hv.
  - eapply secure_end; eauto. lia.
  - eapply secure_own; eauto.
  - eapply secure_reply; eauto.
Qed.

Lemma can_hold_mono (b : board) (p : string) (v v' : Z) :
  can_hold me opp b p v → v ≤ v' → can_hold me opp b p v'.
Proof.
  induction 1 as [b p v u Ht Hu Hle|b p v m Ht Hp Hm Hc IH|b p v Ht Hp Hall IH];
    intros Hv.
  - eapply hold_end; eauto. lia.
  - eapply hold_own; eauto.
  - eapply hold_reply; eauto.
Qed.

(** What one side can secure is not above what the other can hold it
    to: a position has at most one value. *)
Lemma secure_le_hold (b : board) (p : string) (v v' : Z) :
  can_secure me opp b p v → can_hold me opp b p v' → v ≤ v'.
Proof.
  clear me_not_empty opp_not_empty. intros Hs. revert v'.
  induction Hs as [b p v u Ht Hu Hle|b p v m Ht Hp Hm Hc IH|b p v Ht Hp Hall IH];
    intros v' Hh; inversion Hh as [? ? ? u' Ht' Hu' Hle'|? ? ? m' Ht' Hp' Hm' Hc'
                                  |? ? ? Ht' Hp' Hall']; subst; try congruence.
  - rewrite Hu in Hu'. injection Hu' as <-. lia.
  - apply IH. by apply Hall'.
  - by apply (IH m').
Qed.

Lemma game_value_unique (b : board) (p : string) (v v' : Z) :
  game_value me opp b p v → game_value me opp b p v' → v = v'.
Proof.
  clear me_not_empty opp_not_empty. intros [Hs Hh] [Hs' Hh'].
  pose proof (secure_le_hold b p v v' Hs Hh').
  pose proof (secure_le_hold b p v' v Hs' Hh). lia.
Qed.

(** The choice of the exhaustive search on a board that is not
    terminal: a legal move, with its value, no earlier move has that
    value, and no move is better for the side that moves. *)
Lemma answer_at_choice (d : nat) (b : board) (p : string) :
  fits me opp (S d) b p → terminal b = Ok false →
  ∃ l1 m l2,
    moves b = l1 ++ m :: l2 ∧
    answer_at me opp (S d) b p = ((child_answer me opp d b p m).1, Some m) ∧
    (∀ m', m' ∈ l1 →
       (child_answer me opp d b p m').1 ≠ (child_answer me opp d b p m).1) ∧
    (p = me → ∀ m', m' ∈ moves b →
       (child_answer me opp d b p m').1 ≤ (child_answer me opp d b p m).1) ∧
    (p = opp → ∀ m', m' ∈ moves b →
       (child_answer me opp d b p m).1 ≤ (child_answer me opp d b p m').1).
Proof.
  intros Hfit Ht.
  destruct (utility_total b me opp) as (u & Hu & _); [apply Hfit|].
  rewrite (answer_at_S d b p false u Hfit Ht Hu). unfold node_answer.
  pose proof (terminal_false_moves b Ht) as Hne.
  assert (∀ m, m ∈ moves b → -1 ≤ (child_answer me opp d b p m).1 ≤ 1) as Hcv.
  { intros m Hm.
    by destruct (answer_at_range d _ _ (fits_play d b p m Hfit Hm)) as [? _]. }
  destruct (to_move_tests p) as [(-> & Hme & Ho)|(-> & Hme & Ho)];
    [apply Hfit|..]; rewrite Hme.
  - destruct (scan_max_spec (λ m, (child_answer me opp d b me m).1)
                (moves b) (-2, None))
      as [[_ Hall]|(l1 & m & l2 & Hms & -> & _ & H1 & H2)].
    { destruct (moves b) as [|m ms]; [done|].
      pose proof (Hall m ltac:(left)). pose proof (Hcv m ltac:(left)).
      simpl in *. lia. }
    exists l1, m, l2. split_and!; try done.
    + intros m' Hm'. specialize (H1 m' Hm'). simpl in *. lia.
    + intros _ m'. rewrite Hms, elem_of_app, elem_of_cons.
      intros [Hm'|[->|Hm']]; [specialize (H1 m' Hm')| |specialize (H2 m' Hm')];
        simpl in *; lia.
  - destruct (scan_min_spec (λ m, (child_answer me opp d b opp m).1)
                (moves b) (2, None))
      as [[_ Hall]|(l1 & m & l2 & Hms & -> & _ & H1 & H2)].
    { destruct (moves b) as [|m ms]; [done|].
      pose proof (Hall m ltac:(left)). pose proof (Hcv m ltac:(left)).
      simpl in *. lia. }
    exists l1, m, l2. split_and!; try done.
    + intros m' Hm'. specialize (H1 m' Hm'). simpl in *. lia.
    + intros _ m'. rewrite Hms, elem_of_app, elem_of_cons.
      intros [Hm'|[->|Hm']]; [specialize (H1 m' Hm')| |specialize (H2 m' Hm')];
        simpl in *; lia.
Qed.

(** The value returned by the exhaustive search is the value of the
    position. *)
Lemma answer_at_game_value (d : nat) (b : board) (p : string) :
  fits me opp d b p → game_value me opp b p (answer_at me opp d b p).1.
Proof.
  revert b p. induction d as [|d IH]; intros b p Hfit.
  { destruct Hfit as (_ & _ & ?). lia. }
  destruct (terminal_total b) as [[] Ht]; [apply Hfit|..].
  { destruct (utility_total b me opp) as (u & Hu & _); [apply Hfit|].
    rewrite (answer_at_S d b p true u Hfit Ht Hu). simpl.
    split; [eapply secure_end | eapply hold_end]; eauto; lia. }
  destruct (answer_at_choice d b p Hfit Ht)
    as (l1 & m & l2 & Hms & -> & _ & Hmax & Hmin).
  assert (m ∈ moves b) as Hm
    by (rewrite Hms, elem_of_app, elem_of_cons; auto).
  assert (∀ m', m' ∈ moves b →
            game_value me opp (play b m' p) (next_player me opp p)
              (child_answer me opp d b p m').1) as Hc.
  { intros m' Hm'. apply IH. by apply fits_play. }
  simpl.
  destruct (to_move_tests p) as [(-> & Hme & Ho)|(-> & Hme & Ho)];
    [apply Hfit|..]; unfold next_player in Hc; rewrite Hme in Hc.
  - split.
    + eapply secure_own; eauto. by apply Hc.
    + eapply hold_reply; eauto. intros m' Hm'.
      eapply can_hold_mono; [by apply Hc | by apply Hmax].
  - split.
    + eapply secure_reply; eauto. intros m' Hm'.
      eapply can_secure_mono; [by apply Hc | by apply Hmin].
    + eapply hold_own; eauto. by apply Hc.
Qed.

(** The move returned is the first of the moves after which the
    position has the value of the board. *)
Lemma answer_at_first (d : nat) (b : board) (p : string) :
  fits me opp d b p → terminal b = Ok false →
  ∃ m, answer_at me opp d b p = ((answer_at me opp d b p).1, Some m) ∧
    m ∈ moves b ∧
    game_value me opp (play b m p) (next_player me opp p)
      (answer_at me opp d b p).1 ∧
    ∀ m', m' ∈ moves b →
      game_value me opp (play b m' p) (next_player me opp p)
        (answer_at me opp d b p).1 →
      (m ≤ m')%nat.
Proof.
  intros Hfit Ht. destruct d as [|d].
  { destruct Hfit as (_ & _ & ?). lia. }
  destruct (answer_at_choice d b p Hfit Ht)
    as (l1 & m & l2 & Hms & -> & Hl1 & _).
  assert (∀ m', m' ∈ moves b →
            game_value me opp (play b m' p) (next_player me opp p)
              (child_answer me opp d b p m').1) as Hc.
  { intros m' Hm'. apply answer_at_game_value. by apply fits_play. }
  assert (m ∈ moves b) as Hm
    by (rewrite Hms, elem_of_app, elem_of_cons; auto).
  exists m. simpl. split_and!; [done | done | by apply Hc |].
  intros m' Hm' Hv. pose proof (moves_sorted b) as Hsorted.
  rewrite Hms in Hm', Hsorted.
  apply elem_of_app in Hm' as [Hm'|Hm'].
  - destruct (Hl1 m' Hm').
    eapply game_value_unique; [apply Hc | done].
    rewrite Hms, elem_of_app. by left.
  - apply StronglySorted_app_1_r, StronglySorted_cons in Hsorted as [Hlt _].
    apply elem_of_cons in Hm' as [->|Hm']; [lia|].
    rewrite Forall_forall in Hlt. specialize (Hlt m' Hm'). lia.
Qed.

End Sides.

(** ** The searches on list objects *)

Section Objects.

Lemma deref_lookup (s : Store.state) (l : Store.loc) (b : board) :
  Store.heap s !! l = Some b → Store.deref s l = b.
Proof. unfold Store.deref. by intros ->. Qed.

Lemma refines_weaken count other (s s0 : Store.state) r rh :
  refines count other s r rh →
  Store.heap s0 ⊆ Store.heap s → other s = other s0 →
  refines count other s0 r rh.
Proof.
  unfold refines. destruct r as [[a n]|e], rh as [[a' s']|e']; try done.
  intros (-> & <- & Ho & Hsub) Hs0 Heq. split_and!; try done; [congruence|].
  by etrans.
Qed.

(** The copy made by [board[:]] and changed by [b2[m] = player] is a
    new object; the objects there were are as they were. *)
Lemma copy_setitem (s : Store.state) (l : Store.loc) (b : board)
    (m : nat) (p : string) :
  Store.heap s !! l = Some b →
  match setitem b m p with
  | Ok b2 =>
      ∃ s2, Store.setitem (Store.copy s l).2 (Store.copy s l).1 m p = Ok s2 ∧
        Store.heap s2 !! (Store.copy s l).1 = Some b2 ∧
        Store.heap s ⊆ Store.heap s2 ∧
        Store.minimax_nodes s2 = Store.minimax_nodes s ∧
        Store.alphabeta_nodes s2 = Store.alphabeta_nodes s
  | Raise e =>
      Store.setitem (Store.copy s l).2 (Store.copy s l).1 m p = Raise e
  end.
Proof.
  intros Hl. unfold Store.copy. simpl. rewrite (deref_lookup s l b Hl).
  set (l2 := fresh (dom (Store.heap s))).
  set (s1 := Store.State _ _ _).
  assert (Store.heap s !! l2 = None) as Hfresh
    by apply not_elem_of_dom, is_fresh.
  assert (Store.deref s1 l2 = b) as Hd
    by (apply deref_lookup; simpl; apply lookup_insert_eq).
  unfold setitem, Store.setitem. rewrite Hd.
  destruct (decide (m < length b)%nat) as [Hm|Hm]; [|done].
  eexists. split; [done|]. simpl. rewrite lookup_insert_eq.
  split_and!; try done.
  rewrite insert_insert_eq. by apply insert_subseteq.
Qed.

Lemma store_minimax_loop rec rech (l : Store.loc) (b : board)
    (p me opp : string) (ms : list nat) (bv : Z) (bm : option nat)
    (s : Store.state) :
  (∀ l2 b2 q s2, Store.heap s2 !! l2 = Some b2 →
     refines Store.minimax_nodes Store.alphabeta_nodes s2
       (rec b2 q (Store.minimax_nodes s2)) (rech l2 q s2)) →
  Store.heap s !! l = Some b →
  refines Store.minimax_nodes Store.alphabeta_nodes s
    (minimax_loop rec b p me opp ms bv bm (Store.minimax_nodes s))
    (Store.minimax_loop rech l p me opp ms bv bm s).
Proof.
  intros Hrec. revert bv bm s.
  induction ms as [|m ms IH]; intros bv bm s Hl; [done|].
  cbn [minimax_loop Store.minimax_loop].
  pose proof (copy_setitem s l b m p Hl) as Hcopy.
  destruct (Store.copy s l) as [l2 s1]. simpl in Hcopy.
  destruct (setitem b m p) as [b2|e]; simpl; [|by rewrite Hcopy].
  destruct Hcopy as (s2 & -> & Hl2 & Hsub & Hn & Ha). simpl.
  specialize (Hrec l2 b2 (if String.eqb p me then opp else me) s2 Hl2).
  rewrite Hn in Hrec.
  destruct (rec b2 _ _) as [[[v mv] n']|e], (rech l2 _ s2) as [[[v' mv'] s3]|e'];
    simpl in *; try done.
  destruct Hrec as (Heq & <- & Ha3 & Hsub3). injection Heq as -> ->.
  assert (Store.heap s3 !! l = Some b) as Hl3
    by (eapply lookup_weaken; [|done]; by eapply lookup_weaken).
  assert (Store.heap s ⊆ Store.heap s3) as Hs3 by by etrans.
  assert (Store.alphabeta_nodes s3 = Store.alphabeta_nodes s) as Ha3'
    by congruence.
  repeat case_match;
    (eapply refines_weaken; [by apply IH | done | done]).
Qed.

(** The exhaustive search on list objects does what the search on
    values does, and leaves every list that was there unchanged. *)
Lemma store_minimax (d : nat) (l : Store.loc) (b : board)
    (p me opp : string) (s : Store.state) :
  Store.heap s !! l = Some b →
  refines Store.minimax_nodes Store.alphabeta_nodes s
    (minimax d b p me opp (Store.minimax_nodes s))
    (Store.minimax d l p me opp s).
Proof.
  revert l b p s. induction d as [|d IH]; intros l b p s Hl; [done|].
  cbn [minimax Store.minimax].
  assert (Store.heap (Store.count_minimax s) !! l = Some b) as Hl' by done.
  rewrite (deref_lookup _ l b Hl').
  destruct (terminal b) as [[]|e]; simpl; [| |done].
  - destruct (utility b me opp) as [u|e]; simpl; done.
  - eapply refines_weaken;
      [apply (store_minimax_loop _ _ l b p me opp (moves b) _ None
                (Store.count_minimax s)); [|done] | done | done].
    intros l2 b2 q s2 Hl2. by apply IH.
Qed.

Lemma store_alphabeta_max_loop rec rech (l : Store.loc) (b : board)
    (p opp : string) (ms : list nat) (best : answer) (alpha beta : Z)
    (s : Store.state) :
  (∀ l2 b2 q a c s2, Store.heap s2 !! l2 = Some b2 →
     refines Store.alphabeta_nodes Store.minimax_nodes s2
       (rec b2 q a c (Store.alphabeta_nodes s2)) (rech l2 q a c s2)) →
  Store.heap s !! l = Some b →
  refines Store.alphabeta_nodes Store.minimax_nodes s
    (alphabeta_max_loop rec b p opp ms best alpha beta
       (Store.alphabeta_nodes s))
    (Store.alphabeta_max_loop rech l p opp ms best alpha beta s).
Proof.
  intros Hrec. revert best alpha s.
  induction ms as [|m ms IH]; intros best alpha s Hl.
  { simpl. by destruct best. }
  cbn [alphabeta_max_loop Store.alphabeta_max_loop].
  pose proof (copy_setitem s l b m p Hl) as Hcopy.
  destruct (Store.copy s l) as [l2 s1]. simpl in Hcopy.
  destruct (setitem b m p) as [b2|e]; simpl; [|by rewrite Hcopy].
  destruct Hcopy as (s2 & -> & Hl2 & Hsub & Hn & Ha). simpl.
  specialize (Hrec l2 b2 opp alpha beta s2 Hl2).
  rewrite Ha in Hrec.
  destruct (rec b2 _ _ _ _) as [[[v mv] n']|e],
    (rech l2 _ _ _ s2) as [[[v' mv'] s3]|e']; simpl in *; try done.
  destruct Hrec as (Heq & <- & Ha3 & Hsub3). injection Heq as -> ->.
  assert (Store.heap s3 !! l = Some b) as Hl3
    by (eapply lookup_weaken; [|done]; by eapply lookup_weaken).
  assert (Store.heap s ⊆ Store.heap s3) as Hs3 by by etrans.
  assert (Store.minimax_nodes s3 = Store.minimax_nodes s) as Ha3'
    by congruence.
  destruct (Z.max alpha v >=? beta).
  - simpl. by destruct (v >? best.1).
  - eapply refines_weaken; [by apply IH | done | done].
Qed.

Lemma store_alphabeta_min_loop rec rech (l : Store.loc) (b : board)
    (p me : string) (ms : list nat) (best : answer) (alpha beta : Z)
    (s : Store.state) :
  (∀ l2 b2 q a c s2, Store.heap s2 !! l2 = Some b2 →
     refines Store.alphabeta_nodes Store.minimax_nodes s2
       (rec b2 q a c (Store.alphabeta_nodes s2)) (rech l2 q a c s2)) →
  Store.heap s !! l = Some b →
  refines Store.alphabeta_nodes Store.minimax_nodes s
    (alphabeta_min_loop rec b p me ms best alpha beta
       (Store.alphabeta_nodes s))
    (Store.alphabeta_min_loop rech l p me ms best alpha beta s).
Proof.
  intros Hrec. revert best beta s.
  induction ms as [|m ms IH]; intros best beta s Hl.
  { simpl. by destruct best. }
  cbn [alphabeta_min_loop Store.alphabeta_min_loop].
  pose proof (copy_setitem s l b m p Hl) as Hcopy.
  destruct (Store.copy s l) as [l2 s1]. simpl in Hcopy.
  destruct (setitem b m p) as [b2|e]; simpl; [|by rewrite Hcopy].
  destruct Hcopy as (s2 & -> & Hl2 & Hsub & Hn & Ha). simpl.
  specialize (Hrec l2 b2 me alpha beta s2 Hl2).
  rewrite Ha in Hrec.
  destruct (rec b2 _ _ _ _) as [[[v mv] n']|e],
    (rech l2 _ _ _ s2) as [[[v' mv'] s3]|e']; simpl in *; try done.
  destruct Hrec as (Heq & <- & Ha3 & Hsub3). injection Heq as -> ->.
  assert (Store.heap s3 !! l = Some b) as Hl3
    by (eapply lookup_weaken; [|done]; by eapply lookup_weaken).
  assert (Store.heap s ⊆ Store.heap s3) as Hs3 by by etrans.
  assert (Store.minimax_nodes s3 = Store.minimax_nodes s) as Ha3'
    by congruence.
  destruct (alpha >=? Z.min beta v).
  - simpl. by destruct (v <? best.1).
  - eapply refines_weaken; [by apply IH | done | done].
Qed.

Lemma store_alphabeta (d : nat) (l : Store.loc) (b : board)
    (p : string) (alpha beta : Z) (me opp : string) (s : Store.state) :
  Store.heap s !! l = Some b →
  refines Store.alphabeta_nodes Store.minimax_nodes s
    (alphabeta d b p alpha beta me opp (Store.alphabeta_nodes s))
    (Store.alphabeta d l p alpha beta me opp s).
Proof.
  revert l b p alpha beta s.
  induction d as [|d IH]; intros l b p alpha beta s Hl; [done|].
  cbn [alphabeta Store.alphabeta].
  assert (Store.heap (Store.count_alphabeta s) !! l = Some b) as Hl' by done.
  rewrite (deref_lookup _ l b Hl').
  destruct (terminal b) as [[]|e]; simpl; [| |done].
  - destruct (utility b me opp) as [u|e]; simpl; done.
  - destruct (String.eqb p me).
    + eapply refines_weaken;
        [apply (store_alphabeta_max_loop _ _ l b p opp (moves b) _ _ _
                  (Store.count_alphabeta s)); [|done] | done | done].
      intros l2 b2 q a c s2 Hl2. by apply IH.
    + eapply refines_weaken;
        [apply (store_alphabeta_min_loop _ _ l b p me (moves b) _ _ _
                  (Store.count_alphabeta s)); [|done] | done | done].
      intros l2 b2 q a c s2 Hl2. by apply IH.
Qed.

End Objects.

(** ** The marks are only compared

    The rules and the searches compare the cells with each other, with the
    empty cell and with the two sides, and do nothing else with them:
    writing the two marks differently changes no answer and no count. *)

Section Renaming.
Variables (f : string → string) (me opp : string).
Hypothesis f_empty : f EMPTY = EMPTY.
Hypothesis f_inj : ∀ x y,
  mark_of me opp x → mark_of me opp y → f x = f y → x = y.

Lemma eqb_renamed (x y : string) :
  mark_of me opp x → mark_of me opp y →
  String.eqb (f x) (f y) = String.eqb x y.
Proof.
  intros Hx Hy. destruct (String.eqb_spec x y) as [->|Hne].
  - apply String.eqb_refl.
  - apply String.eqb_neq. intros Heq. by apply Hne, f_inj.
Qed.

Lemma mark_of_empty : mark_of me opp EMPTY.
Proof. by left. Qed.

Lemma mark_of_me : mark_of me opp me.
Proof. right. by left. Qed.

Lemma mark_of_opp : mark_of me opp opp.
Proof. right. by right. Qed.

Lemma eqb_renamed_empty (x : string) :
  mark_of me opp x → String.eqb (f x) EMPTY = String.eqb x EMPTY.
Proof.
  intros Hx. rewrite <- f_empty at 1. apply eqb_renamed; [done|].
  apply mark_of_empty.
Qed.

Lemma getitem_renamed (b : board) (i : nat) :
  getitem (f <$> b) i = (x <- getitem b i ;; Ok (f x)).
Proof. unfold getitem. rewrite list_lookup_fmap. by destruct (b !! i). Qed.

Lemma getitem_mark (b : board) (i : nat) (x : string) :
  marks me opp b → getitem b i = Ok x → mark_of me opp x.
Proof.
  unfold getitem. intros Hb Hx. destruct (b !! i) as [y|] eqn:Hi; [|done].
  injection Hx as <-. by eapply Forall_lookup_1.
Qed.

Lemma winner_in_renamed (lines : list (nat * nat * nat)) (b : board) :
  marks me opp b →
  winner_in lines (f <$> b) = (w <- winner_in lines b ;; Ok (f <$> w)) ∧
  ∀ x, winner_in lines b = Ok (Some x) → mark_of me opp x.
Proof.
  intros Hb. induction lines as [|[[i j] k] rest [IH1 IH2]]; [done|].
  cbn [winner_in]. rewrite !getitem_renamed.
  destruct (getitem b i) as [x|] eqn:Hi; [|done].
  pose proof (getitem_mark b i x Hb Hi) as Hx.
  cbn [bind]. rewrite (eqb_renamed_empty x Hx).
  destruct (negb (String.eqb x EMPTY)); [|done].
  destruct (getitem b j) as [y|] eqn:Hj; [|done].
  pose proof (getitem_mark b j y Hb Hj) as Hy.
  cbn [bind]. rewrite (eqb_renamed x y Hx Hy).
  destruct (String.eqb x y); [|done].
  destruct (getitem b k) as [z|] eqn:Hk; [|done].
  pose proof (getitem_mark b k z Hb Hk) as Hz.
  cbn [bind]. rewrite (eqb_renamed y z Hy Hz).
  destruct (String.eqb y z); [|done].
  split; [done|]. by intros ? [= <-].
Qed.

Lemma moves_from_renamed (i : nat) (b : board) :
  marks me opp b → moves_from i (f <$> b) = moves_from i b.
Proof.
  intros Hb. revert i. induction Hb as [|c b Hc Hb IH]; intros i; [done|].
  simpl. rewrite (eqb_renamed_empty c Hc), !IH. done.
Qed.

Lemma terminal_renamed (b : board) :
  marks me opp b → terminal (f <$> b) = terminal b.
Proof.
  intros Hb. unfold terminal, winner, moves.
  destruct (winner_in_renamed LINES b Hb) as [-> _].
  rewrite (moves_from_renamed 0 b Hb).
  by destruct (winner_in LINES b) as [[]|].
Qed.

Lemma utility_renamed (b : board) :
  marks me opp b → utility (f <$> b) (f me) (f opp) = utility b me opp.
Proof.
  intros Hb. unfold utility, winner.
  destruct (winner_in_renamed LINES b Hb) as [-> Hw].
  destruct (winner_in LINES b) as [[x|]|]; [|done..].
  specialize (Hw x eq_refl). simpl.
  by rewrite !eqb_renamed by auto using mark_of_me, mark_of_opp.
Qed.

Lemma setitem_renamed (b : board) (m : nat) (p : string) :
  setitem (f <$> b) m (f p) = (b2 <- setitem b m p ;; Ok (f <$> b2)).
Proof.
  unfold setitem. rewrite length_fmap.
  destruct (decide (m < length b)%nat); [|done]. simpl.
  by rewrite list_fmap_insert.
Qed.

Lemma setitem_marks (b b2 : board) (m : nat) (p : string) :
  marks me opp b → mark_of me opp p → setitem b m p = Ok b2 →
  marks me opp b2.
Proof.
  unfold setitem. intros Hb Hp. destruct (decide _); [|done].
  intros [= <-]. by apply Forall_insert.
Qed.

Lemma to_move_mark (p : string) : to_move me opp p → mark_of me opp p.
Proof. intros [->| ->]; auto using mark_of_me, mark_of_opp. Qed.

Lemma minimax_loop_renamed rec rec' (b : board) (p : string)
    (ms : list nat) (bv : Z) (bm : option nat) (n : Z) :
  (∀ b2 q k, marks me opp b2 → to_move me opp q →
     rec' (f <$> b2) (f q) k = rec b2 q k) →
  marks me opp b → to_move me opp p →
  minimax_loop rec' (f <$> b) (f p) (f me) (f opp) ms bv bm n =
    minimax_loop rec b p me opp ms bv bm n.
Proof.
  intros Hrec Hb Hp. pose proof (to_move_mark p Hp) as Hpm.
  revert bv bm n. induction ms as [|m ms IH]; intros bv bm n; [done|].
  cbn [minimax_loop]. rewrite setitem_renamed.
  destruct (setitem b m p) as [b2|] eqn:Hset; [|done]. cbn [bind].
  rewrite !eqb_renamed by auto using mark_of_me, mark_of_opp.
  replace (if String.eqb p me then f opp else f me)
    with (f (if String.eqb p me then opp else me))
    by by destruct (String.eqb p me).
  rewrite Hrec;
    [|by eapply setitem_marks
     |destruct (String.eqb p me); [by right | by left]].
  destruct (rec b2 _ n) as [[[v mv] k]|]; [|done]. simpl.
  by rewrite !IH.
Qed.

Lemma minimax_renamed (d : nat) (b : board) (p : string) (n : Z) :
  marks me opp b → to_move me opp p →
  minimax d (f <$> b) (f p) (f me) (f opp) n = minimax d b p me opp n.
Proof.
  revert b p n. induction d as [|d IH]; intros b p n Hb Hp; [done|].
  rewrite !minimax_S, terminal_renamed, utility_renamed by done.
  destruct (terminal b) as [[]|]; [done| |done]. cbn [bind].
  rewrite (eqb_renamed p me) by auto using to_move_mark, mark_of_me.
  unfold moves. rewrite moves_from_renamed by done.
  apply minimax_loop_renamed; [|done..].
  intros b2 q k Hb2 Hq. by apply IH.
Qed.

Lemma alphabeta_max_loop_renamed rec rec' (b : board) (p q : string)
    (ms : list nat) (best : answer) (alpha beta n : Z) :
  (∀ b2 a c k, marks me opp b2 →
     rec' (f <$> b2) (f q) a c k = rec b2 q a c k) →
  marks me opp b → to_move me opp p →
  alphabeta_max_loop rec' (f <$> b) (f p) (f q) ms best alpha beta n =
    alphabeta_max_loop rec b p q ms best alpha beta n.
Proof.
  intros Hrec Hb Hp. pose proof (to_move_mark p Hp) as Hpm.
  revert best alpha n. induction ms as [|m ms IH]; intros best alpha n; [done|].
  cbn [alphabeta_max_loop]. rewrite setitem_renamed.
  destruct (setitem b m p) as [b2|] eqn:Hset; [|done]. cbn [bind].
  rewrite Hrec by by eapply setitem_marks.
  destruct (rec b2 _ _ _ n) as [[[v mv] k]|]; [|done]. simpl.
  by rewrite !IH.
Qed.

Lemma alphabeta_min_loop_renamed rec rec' (b : board) (p q : string)
    (ms : list nat) (best : answer) (alpha beta n : Z) :
  (∀ b2 a c k, marks me opp b2 →
     rec' (f <$> b2) (f q) a c k = rec b2 q a c k) →
  marks me opp b → to_move me opp p →
  alphabeta_min_loop rec' (f <$> b) (f p) (f q) ms best alpha beta n =
    alphabeta_min_loop rec b p q ms best alpha beta n.
Proof.
  intros Hrec Hb Hp. pose proof (to_move_mark p Hp) as Hpm.
  revert best beta n. induction ms as [|m ms IH]; intros best beta n; [done|].
  cbn [alphabeta_min_loop]. rewrite setitem_renamed.
  destruct (setitem b m p) as [b2|] eqn:Hset; [|done]. cbn [bind].
  rewrite Hrec by by eapply setitem_marks.
  destruct (rec b2 _ _ _ n) as [[[v mv] k]|]; [|done]. simpl.
  by rewrite !IH.
Qed.

Lemma alphabeta_renamed (d : nat) (b : board) (p : string)
    (alpha beta n : Z) :
  marks me opp b → to_move me opp p →
  alphabeta d (f <$> b) (f p) alpha beta (f me) (f opp) n =
    alphabeta d b p alpha beta me opp n.
Proof.
  revert b p alpha beta n.
  induction d as [|d IH]; intros b p alpha beta n Hb Hp; [done|].
  rewrite !alphabeta_S, terminal_renamed, utility_renamed by done.
  destruct (terminal b) as [[]|]; [done| |done]. cbn [bind].
  rewrite (eqb_renamed p me) by auto using to_move_mark, mark_of_me.
  unfold moves. rewrite moves_from_renamed by done.
  destruct (String.eqb p me).
  - apply alphabeta_max_loop_renamed; [|done..].
    intros b2 a c k Hb2. apply IH; [done | by right].
  - apply alphabeta_min_loop_renamed; [|done..].
    intros b2 a c k Hb2. apply IH; [done | by left].
Qed.

End Renaming.

(** The empty board of any two sides is the empty board of ["O"] and
    ["X"]. *)
Lemma rename_sides (me opp me' opp' : string) :
  valid_sides me opp → valid_sides me' opp' →
  rename me opp me' opp' EMPTY = EMPTY ∧
  rename me opp me' opp' me = me' ∧
  rename me opp me' opp' opp = opp' ∧
  ∀ x y, mark_of me opp x → mark_of me opp y →
    rename me opp me' opp' x = rename me opp me' opp' y → x = y.
Proof.
  intros [Hm Ho Hd] [Hm' Ho' Hd']. unfold rename.
  assert (String.eqb EMPTY me = false) as He1 by (apply String.eqb_neq; congruence).
  assert (String.eqb EMPTY opp = false) as He2 by (apply String.eqb_neq; congruence).
  assert (String.eqb opp me = false) as He3 by (apply String.eqb_neq; congruence).
  rewrite He1, He2, He3, !String.eqb_refl. split_and!; try done.
  intros x y [->|[->| ->]] [->|[->| ->]];
    rewrite ?He1, ?He2, ?He3, ?String.eqb_refl; congruence.
Qed.

Lemma search_renamed (me opp me' opp' p : string) (d : nat)
    (alpha beta n : Z) :
  valid_sides me opp → valid_sides me' opp' → to_move me opp p →
  minimax d empty_board p me opp n =
    minimax d empty_board (rename me opp me' opp' p) me' opp' n ∧
  alphabeta d empty_board p alpha beta me opp n =
    alphabeta d empty_board (rename me opp me' opp' p) alpha beta me' opp' n.
Proof.
  intros Hv Hv' Hp.
  destruct (rename_sides me opp me' opp' Hv Hv') as (He & Hme & Hopp & Hinj).
  assert (rename me opp me' opp' <$> empty_board = empty_board) as Hb.
  { unfold empty_board. simpl. by rewrite He. }
  assert (marks me opp empty_board) as Hmarks.
  { unfold empty_board. simpl. repeat constructor. }
  split.
  - rewrite <- (minimax_renamed (rename me opp me' opp') me opp He Hinj d
                 empty_board p n Hmarks Hp).
    by rewrite Hb, Hme, Hopp.
  - rewrite <- (alphabeta_renamed (rename me opp me' opp') me opp He Hinj d
                 empty_board p alpha beta n Hmarks Hp).
    by rewrite Hb, Hme, Hopp.
Qed.

(** ** More stack and another start of the counter

    A search that returns with [d] calls of stack returns the same with
    more, and the value of the counter at the call is only added to. *)

Lemma minimax_loop_deeper rec rec' (b : board) (p me opp : string)
    (ms : list nat) (bv : Z) (bm : option nat) (n : Z) r :
  (∀ b2 q k r2, rec b2 q k = Ok r2 → rec' b2 q k = Ok r2) →
  minimax_loop rec b p me opp ms bv bm n = Ok r →
  minimax_loop rec' b p me opp ms bv bm n = Ok r.
Proof.
  intros Hrec. revert bv bm n.
  induction ms as [|m ms IH]; intros bv bm n; [done|].
  cbn [minimax_loop]. destruct (setitem b m p) as [b2|]; [|done]. cbn [bind].
  destruct (rec b2 _ n) as [[[v mv] k]|] eqn:Hcall; [|done].
  rewrite (Hrec _ _ _ _ Hcall). simpl. repeat case_match; apply IH.
Qed.

Lemma minimax_deeper (d : nat) (b : board) (p me opp : string) (n : Z) r :
  minimax d b p me opp n = Ok r → minimax (S d) b p me opp n = Ok r.
Proof.
  revert b p n r. induction d as [|d IH]; intros b p n r; [done|].
  rewrite (minimax_S (S d)), (minimax_S d).
  destruct (terminal b) as [[]|]; [done| |done]. cbn [bind].
  apply minimax_loop_deeper. intros b2 q k r2. apply IH.
Qed.

Lemma minimax_deeper_le (d d' : nat) (b : board) (p me opp : string) (n : Z) r :
  (d ≤ d')%nat → minimax d b p me opp n = Ok r →
  minimax d' b p me opp n = Ok r.
Proof. induction 1 as [|d' _ IH]; [done|]. intros H. by apply minimax_deeper, IH. Qed.

Lemma alphabeta_max_loop_deeper rec rec' (b : board) (p q : string)
    (ms : list nat) (best : answer) (alpha beta n : Z) r :
  (∀ b2 a c k r2, rec b2 q a c k = Ok r2 → rec' b2 q a c k = Ok r2) →
  alphabeta_max_loop rec b p q ms best alpha beta n = Ok r →
  alphabeta_max_loop rec' b p q ms best alpha beta n = Ok r.
Proof.
  intros Hrec. revert best alpha n.
  induction ms as [|m ms IH]; intros best alpha n; [done|].
  cbn [alphabeta_max_loop]. destruct (setitem b m p) as [b2|]; [|done].
  cbn [bind]. destruct (rec b2 _ _ _ n) as [[[v mv] k]|] eqn:Hcall; [|done].
  rewrite (Hrec _ _ _ _ _ Hcall). simpl. case_match; [done | apply IH].
Qed.

Lemma alphabeta_min_loop_deeper rec rec' (b : board) (p q : string)
    (ms : list nat) (best : answer) (alpha beta n : Z) r :
  (∀ b2 a c k r2, rec b2 q a c k = Ok r2 → rec' b2 q a c k = Ok r2) →
  alphabeta_min_loop rec b p q ms best alpha beta n = Ok r →
  alphabeta_min_loop rec' b p q ms best alpha beta n = Ok r.
Proof.
  intros Hrec. revert best beta n.
  induction ms as [|m ms IH]; intros best beta n; [done|].
  cbn [alphabeta_min_loop]. destruct (setitem b m p) as [b2|]; [|done].
  cbn [bind]. destruct (rec b2 _ _ _ n) as [[[v mv] k]|] eqn:Hcall; [|done].
  rewrite (Hrec _ _ _ _ _ Hcall). simpl. case_match; [done | apply IH].
Qed.

Lemma alphabeta_deeper (d : nat) (b : board) (p : string) (alpha beta : Z)
    (me opp : string) (n : Z) r :
  alphabeta d b p alpha beta me opp n = Ok r →
  alphabeta (S d) b p alpha beta me opp n = Ok r.
Proof.
  revert b p alpha beta n r.
  induction d as [|d IH]; intros b p alpha beta n r; [done|].
  rewrite (alphabeta_S (S d)), (alphabeta_S d).
  destruct (terminal b) as [[]|]; [done| |done]. cbn [bind].
  destruct (String.eqb p me).
  - apply alphabeta_max_loop_deeper. intros b2 a c k r2. apply IH.
  - apply alphabeta_min_loop_deeper. intros b2 a c k r2. apply IH.
Qed.

Lemma alphabeta_deeper_le (d d' : nat) (b : board) (p : string)
    (alpha beta : Z) (me opp : string) (n : Z) r :
  (d ≤ d')%nat → alphabeta d b p alpha beta me opp n = Ok r →
  alphabeta d' b p alpha beta me opp n = Ok r.
Proof. induction 1 as [|d' _ IH]; [done|]. intros H. by apply alphabeta_deeper, IH. Qed.

Lemma alphabeta_max_loop_shift rec (b : board) (p q : string)
    (ms : list nat) (best : answer) (alpha beta n j : Z) :
  (∀ b2 a c k, rec b2 q a c (k + j) = shift j (rec b2 q a c k)) →
  alphabeta_max_loop rec b p q ms best alpha beta (n + j) =
    shift j (alphabeta_max_loop rec b p q ms best alpha beta n).
Proof.
  intros Hrec. revert best alpha n.
  induction ms as [|m ms IH]; intros best alpha n; [by destruct best|].
  cbn [alphabeta_max_loop]. destruct (setitem b m p) as [b2|]; [|done].
  cbn [bind]. rewrite Hrec.
  destruct (rec b2 _ _ _ n) as [[[v mv] k]|]; [|done]. simpl.
  case_match; [by case_match | apply IH].
Qed.

Lemma alphabeta_min_loop_shift rec (b : board) (p q : string)
    (ms : list nat) (best : answer) (alpha beta n j : Z) :
  (∀ b2 a c k, rec b2 q a c (k + j) = shift j (rec b2 q a c k)) →
  alphabeta_min_loop rec b p q ms best alpha beta (n + j) =
    shift j (alphabeta_min_loop rec b p q ms best alpha beta n).
Proof.
  intros Hrec. revert best beta n.
  induction ms as [|m ms IH]; intros best beta n; [by destruct best|].
  cbn [alphabeta_min_loop]. destruct (setitem b m p) as [b2|]; [|done].
  cbn [bind]. rewrite Hrec.
  destruct (rec b2 _ _ _ n) as [[[v mv] k]|]; [|done]. simpl.
  case_match; [by case_match | apply IH].
Qed.

Lemma alphabeta_shift (d : nat) (b : board) (p : string) (alpha beta : Z)
    (me opp : string) (n j : Z) :
  alphabeta d b p alpha beta me opp (n + j) =
    shift j (alphabeta d b p alpha beta me opp n).
Proof.
  revert b p alpha beta n.
  induction d as [|d IH]; intros b p alpha beta n; [done|].
  rewrite !alphabeta_S.
  destruct (terminal b) as [[]|]; [| |done]; cbn [bind].
  - destruct (utility b me opp); [|done]. simpl. do 2 f_equal. lia.
  - replace (n + j + 1) with (n + 1 + j) by lia.
    destruct (String.eqb p me).
    + apply alphabeta_max_loop_shift. intros b2 a c k. apply IH.
    + apply alphabeta_min_loop_shift. intros b2 a c k. apply IH.
Qed.

Lemma moves_from_length (i : nat) (b : board) :
  (length (moves_from i b) ≤ length b)%nat.
Proof.
  revert i. induction b as [|v vs IH]; intros i; simpl; [lia|].
  specialize (IH (S i)). destruct (String.eqb v EMPTY); simpl; lia.
Qed.

(** Ten calls of stack are enough on a board of nine cells. *)
Lemma fits_ten (me opp : string) (d : nat) (b : board) (p : string) :
  length b = 9%nat → to_move me opp p → (10 ≤ d)%nat → fits me opp d b p.
Proof.
  intros Hb Hp Hd. split_and!; [done..|].
  pose proof (moves_from_length 0 b). unfold moves. lia.
Qed.

(** ** The scenarios, by computation *)

Lemma minimax_empty_OX :
  minimax 10 empty_board "O" "O" "X" 0 = Ok ((0, Some 0%nat), 549946).
Proof. by vm_compute. Qed.

Lemma alphabeta_empty_OX :
  alphabeta 10 empty_board "O" (-2) 2 "O" "X" 0 = Ok ((0, Some 0%nat), 18297).
Proof. by vm_compute. Qed.

(** The same with the opponent moving first. *)
Lemma minimax_empty_OX_second :
  minimax 10 empty_board "X" "O" "X" 0 = Ok ((0, Some 0%nat), 549946).
Proof. by vm_compute. Qed.

Lemma alphabeta_empty_OX_second :
  alphabeta 10 empty_board "X" (-2) 2 "O" "X" 0 = Ok ((0, Some 0%nat), 18297).
Proof. by vm_compute. Qed.

Lemma minimax_threat_OX :
  minimax 10 threat_board "O" "O" "X" 0 = Ok ((1, Some 2%nat), 145).
Proof. by vm_compute. Qed.

Lemma valid_OX : valid_sides "O" "X".
Proof. by split. Qed.

Lemma minimax_at (me opp : string) (d : nat) (b : board) (p : string)
    (a : answer) (k n : Z) :
  valid_sides me opp → length b = 9%nat → to_move me opp p → (10 ≤ d)%nat →
  minimax 10 b p me opp 0 = Ok (a, k) →
  answer_at me opp d b p = a ∧ minimax d b p me opp n = Ok (a, n + k).
Proof.
  intros [Hm Ho Hd] Hb Hp Hle H10.
  pose proof (minimax_deeper_le 10 d b p me opp 0 _ Hle H10) as Hd0.
  pose proof (minimax_returns me opp Hm Ho Hd d b p 0
                (fits_ten me opp d b p Hb Hp Hle)) as H0.
  rewrite Hd0 in H0. injection H0 as Ha Hk.
  rewrite (minimax_returns me opp Hm Ho Hd d b p n
             (fits_ten me opp d b p Hb Hp Hle)).
  rewrite <- Ha. split; [done|]. do 2 f_equal. lia.
Qed.

Lemma minimax_empty_board (me opp p : string) (d : nat) (n : Z) :
  valid_sides me opp → to_move me opp p → (10 ≤ d)%nat →
  minimax d empty_board p me opp n = Ok ((0, Some 0%nat), n + 549946).
Proof.
  intros Hv Hp Hd.
  destruct (search_renamed me opp "O" "X" p d 0 0 n Hv valid_OX Hp) as [-> _].
  destruct (rename_sides me opp "O" "X" Hv valid_OX) as (_ & Hme & Hopp & _).
  destruct Hp as [->| ->]; rewrite ?Hme, ?Hopp.
  - by apply (minimax_at "O" "X" d empty_board "O" _ _ n valid_OX);
      [| left | | apply minimax_empty_OX].
  - by apply (minimax_at "O" "X" d empty_board "X" _ _ n valid_OX);
      [| right | | apply minimax_empty_OX_second].
Qed.

Lemma alphabeta_empty_board (me opp p : string) (d : nat) (n : Z) :
  valid_sides me opp → to_move me opp p → (10 ≤ d)%nat →
  alphabeta d empty_board p (-2) 2 me opp n = Ok ((0, Some 0%nat), n + 18297).
Proof.
  intros Hv Hp Hd.
  destruct (search_renamed me opp "O" "X" p d (-2) 2 n Hv valid_OX Hp)
    as [_ ->].
  destruct (rename_sides me opp "O" "X" Hv valid_OX) as (_ & Hme & Hopp & _).
  replace n with (0 + n) at 1 by lia. rewrite alphabeta_shift.
  destruct Hp as [->| ->]; rewrite ?Hme, ?Hopp.
  - rewrite (alphabeta_deeper_le 10 d _ _ _ _ _ _ _ _ Hd alphabeta_empty_OX).
    simpl. do 2 f_equal. lia.
  - rewrite (alphabeta_deeper_le 10 d _ _ _ _ _ _ _ _ Hd
               alphabeta_empty_OX_second).
    simpl. do 2 f_equal. lia.
Qed.

(** * The claims *)

(** C1.  For every board of nine cells and every two sides, the pruned
    search called with a window that starts below -1 and ends above +1
    returns the pair [(value, move)] that the exhaustive search returns
    with the same side to move. *)
Theorem pruned_search_equals_exhaustive (me opp : string) (b : board)
    (p : string) (d : nat) (alpha beta n n' : Z) :
  valid_sides me opp → length b = 9%nat → to_move me opp p → (10 ≤ d)%nat →
  alpha < -1 → 1 < beta →
  ∃ a k k',
    minimax d b p me opp n = Ok (a, k) ∧
    alphabeta d b p alpha beta me opp n' = Ok (a, k').
Proof.
  intros [Hm Ho Hd] Hb Hp Hle Ha Hc.
  pose proof (fits_ten me opp d b p Hb Hp Hle) as Hfit.
  destruct (alphabeta_exact me opp Hm Ho Hd d b p alpha beta n' Hfit)
    as [k' Hab]; [lia..|].
  exists (answer_at me opp d b p), (n + nodes_at me opp d b p), (n' + k').
  split; [by apply minimax_returns | done].
Qed.

Lemma pruned_search_equals_exhaustive_witness :
  ∃ a k k',
    minimax 10 threat_board "O" "O" "X" 0 = Ok (a, k) ∧
    alphabeta 10 threat_board "O" (-2) 2 "O" "X" 0 = Ok (a, k').
Proof.
  apply pruned_search_equals_exhaustive;
    [apply valid_OX | reflexivity | by left | lia | lia | lia].
Defined.

(** C2.  The value returned by the exhaustive search is the value of the
    position in the game: the searching side can secure it and the
    opponent can hold it to it, and no other number has that property.
    On a board that is not terminal the move returned is legal, and after
    it the searching side can still secure that value whatever the
    opponent plays. *)
Theorem minimax_returns_game_value (me opp : string) (b : board)
    (p : string) (d : nat) (n : Z) :
  valid_sides me opp → length b = 9%nat → to_move me opp p → (10 ≤ d)%nat →
  ∃ v mv k,
    minimax d b p me opp n = Ok ((v, mv), k) ∧
    game_value me opp b p v ∧
    (∀ v', game_value me opp b p v' → v' = v) ∧
    (terminal b = Ok false →
     ∃ m, mv = Some m ∧ m ∈ moves b ∧
       can_secure me opp (play b m p) (next_player me opp p) v).
Proof.
  intros [Hm Ho Hd] Hb Hp Hle.
  pose proof (fits_ten me opp d b p Hb Hp Hle) as Hfit.
  pose proof (answer_at_game_value me opp Hm Ho Hd d b p Hfit) as Hv.
  exists (answer_at me opp d b p).1, (answer_at me opp d b p).2,
    (n + nodes_at me opp d b p).
  split_and!.
  - rewrite (minimax_returns me opp Hm Ho Hd d b p n Hfit).
    by destruct (answer_at me opp d b p).
  - done.
  - intros v' Hv'. by apply (game_value_unique me opp Hd b p).
  - intros Ht.
    destruct (answer_at_first me opp Hm Ho Hd d b p Hfit Ht)
      as (m & Heq & Hin & [Hs _] & _).
    exists m. split_and!; [by rewrite Heq | done | done].
Qed.

Lemma minimax_returns_game_value_witness :
  ∃ v mv k,
    minimax 10 threat_board "O" "O" "X" 0 = Ok ((v, mv), k) ∧
    game_value "O" "X" threat_board "O" v ∧
    (∀ v', game_value "O" "X" threat_board "O" v' → v' = v) ∧
    (terminal threat_board = Ok false →
     ∃ m, mv = Some m ∧ m ∈ moves threat_board ∧
       can_secure "O" "X" (play threat_board m "O")
         (next_player "O" "X" "O") v).
Proof.
  apply minimax_returns_game_value;
    [apply valid_OX | reflexivity | by left | lia].
Defined.

(** C3.  On a terminal board [utility] returns +1 exactly when the
    winning mark is the searching side, -1 exactly when it is the
    opponent, and 0 in every other case; when the board holds only the
    marks of the two sides, the other case is that nobody has won. *)
Theorem utility_of_terminal_board (me opp : string) (b : board) :
  me ≠ opp → terminal b = Ok true →
  ∃ w u,
    winner b = Ok w ∧ utility b me opp = Ok u ∧
    (u = 1 ↔ w = Some me) ∧
    (u = -1 ↔ w = Some opp) ∧
    (u = 0 ↔ w ≠ Some me ∧ w ≠ Some opp) ∧
    (marks me opp b → (u = 0 ↔ w = None)).
Proof.
  intros Hd Ht. unfold terminal in Ht.
  apply bind_inv in Ht as (w & Hw & _).
  exists w. unfold utility. rewrite Hw. simpl. eexists. split; [done|].
  split; [done|].
  assert (∀ q, is_mark w q = true ↔ w = Some q) as Hmark.
  { intros q. destruct w as [x|]; simpl; [|done].
    rewrite String.eqb_eq. split; congruence. }
  assert (is_mark w me = true → is_mark w opp = true → False) as Hboth.
  { rewrite !Hmark. congruence. }
  pose proof (Hmark me) as Hme. pose proof (Hmark opp) as Hopp.
  assert (marks me opp b → w = None ∨ w = Some me ∨ w = Some opp) as Hw3.
  { intros Hb. destruct w as [x|]; [right|by left].
    destruct (winner_in_renamed id me opp eq_refl (λ _ _ _ _ H, H) LINES b Hb)
      as [_ Hx].
    specialize (Hx x Hw).
    assert (x ≠ EMPTY) as Hne.
    { clear -Hw. unfold winner in Hw. revert Hw.
      induction LINES as [|[[i j] k] rest IH]; [done|]. cbn [winner_in].
      destruct (getitem b i) as [c|]; [|done]. cbn [bind].
      destruct (String.eqb_spec c EMPTY) as [->|Hc]; [done|]. simpl.
      destruct (getitem b j) as [c2|]; [|done]. cbn [bind].
      destruct (String.eqb c c2); [|done].
      destruct (getitem b k) as [c3|]; [|done]. cbn [bind].
      destruct (String.eqb c2 c3); [|done]. congruence. }
    destruct Hx as [->|[->| ->]]; [done | by left | by right]. }
  destruct (is_mark w me) eqn:E1, (is_mark w opp) eqn:E2;
    split_and!; try (intros Hb; specialize (Hw3 Hb));
    intuition (try discriminate; try congruence; try lia).
Qed.

Lemma utility_of_terminal_board_witness :
  ∃ w u,
    winner won_board = Ok w ∧ utility won_board "O" "X" = Ok u ∧
    (u = 1 ↔ w = Some "O") ∧
    (u = -1 ↔ w = Some "X") ∧
    (u = 0 ↔ w ≠ Some "O" ∧ w ≠ Some "X") ∧
    (marks "O" "X" won_board → (u = 0 ↔ w = None)).
Proof.
  apply utility_of_terminal_board; [discriminate | reflexivity].
Defined.

(** C4.  On the empty board with the searching side to move, the
    exhaustive search and the pruned search both return the value 0. *)
Theorem empty_board_is_a_draw (me opp : string) (d : nat)
    (alpha beta n n' : Z) :
  valid_sides me opp → (10 ≤ d)%nat → alpha < -1 → 1 < beta →
  ∃ mv mv' k k',
    minimax d empty_board me me opp n = Ok ((0, mv), k) ∧
    alphabeta d empty_board me alpha beta me opp n' = Ok ((0, mv'), k').
Proof.
  intros Hv Hle Ha Hc.
  destruct (minimax_at me opp d empty_board me _ _ n Hv eq_refl
              (or_introl eq_refl) Hle
              (minimax_empty_board me opp me 10 0 Hv (or_introl eq_refl)
                 (le_n 10))) as [Hans Hmm].
  destruct Hv as [Hm Ho Hd].
  destruct (alphabeta_exact me opp Hm Ho Hd d empty_board me alpha beta n'
              (fits_ten me opp d empty_board me eq_refl (or_introl eq_refl) Hle))
    as [k' Hab]; [lia..|].
  rewrite Hans in Hab. by eexists _, _, _, _.
Qed.

Lemma empty_board_is_a_draw_witness :
  ∃ mv mv' k k',
    minimax 10 empty_board "O" "O" "X" 0 = Ok ((0, mv), k) ∧
    alphabeta 10 empty_board "O" (-2) 2 "O" "X" 0 = Ok ((0, mv'), k').
Proof.
  apply empty_board_is_a_draw; [apply valid_OX | lia | lia | lia].
Defined.

(** C5.  On a board that is not terminal both searches return the first,
    in the order of the indices, of the moves after which the position
    has the value of the board: the moves are listed in ascending order,
    and no earlier move has that value. *)
Theorem first_best_move_is_returned (me opp : string) (b : board)
    (p : string) (d : nat) (alpha beta n n' : Z) :
  valid_sides me opp → length b = 9%nat → to_move me opp p → (10 ≤ d)%nat →
  alpha < -1 → 1 < beta → terminal b = Ok false →
  ∃ v m k k',
    minimax d b p me opp n = Ok ((v, Some m), k) ∧
    alphabeta d b p alpha beta me opp n' = Ok ((v, Some m), k') ∧
    game_value me opp b p v ∧
    m ∈ moves b ∧
    game_value me opp (play b m p) (next_player me opp p) v ∧
    (∀ m', m' ∈ moves b →
       game_value me opp (play b m' p) (next_player me opp p) v →
       (m ≤ m')%nat) ∧
    StronglySorted lt (moves b).
Proof.
  intros [Hm Ho Hd] Hb Hp Hle Ha Hc Ht.
  pose proof (fits_ten me opp d b p Hb Hp Hle) as Hfit.
  destruct (answer_at_first me opp Hm Ho Hd d b p Hfit Ht)
    as (m & Heq & Hin & Hv & Hfirst).
  destruct (alphabeta_exact me opp Hm Ho Hd d b p alpha beta n' Hfit)
    as [k' Hab]; [lia..|].
  exists (answer_at me opp d b p).1, m, (n + nodes_at me opp d b p), (n' + k').
  split_and!; try done.
  - rewrite (minimax_returns me opp Hm Ho Hd d b p n Hfit). by rewrite Heq at 1.
  - rewrite Hab. by rewrite Heq at 1.
  - by apply answer_at_game_value.
  - apply moves_sorted.
Qed.

Lemma first_best_move_is_returned_witness :
  ∃ v m k k',
    minimax 10 threat_board "O" "O" "X" 0 = Ok ((v, Some m), k) ∧
    alphabeta 10 threat_board "O" (-2) 2 "O" "X" 0 = Ok ((v, Some m), k') ∧
    game_value "O" "X" threat_board "O" v ∧
    m ∈ moves threat_board ∧
    game_value "O" "X" (play threat_board m "O") (next_player "O" "X" "O") v ∧
    (∀ m', m' ∈ moves threat_board →
       game_value "O" "X" (play threat_board m' "O")
         (next_player "O" "X" "O") v →
       (m ≤ m')%nat) ∧
    StronglySorted lt (moves threat_board).
Proof.
  apply first_best_move_is_returned;
    [apply valid_OX | reflexivity | by left | lia | lia | lia | reflexivity].
Defined.

(** C6.  On the board with X on 0 and 1 and O on 3 and 4, with O the
    searching side and to move, both searches return the move 2. *)
Theorem threat_board_move_is_2 (d : nat) (alpha beta n n' : Z) :
  (10 ≤ d)%nat → alpha < -1 → 1 < beta →
  ∃ k',
    minimax d threat_board "O" "O" "X" n = Ok ((1, Some 2%nat), n + 145) ∧
    alphabeta d threat_board "O" alpha beta "O" "X" n' =
      Ok ((1, Some 2%nat), k').
Proof.
  intros Hle Ha Hc.
  destruct (minimax_at "O" "X" d threat_board "O" _ _ n valid_OX eq_refl
              (or_introl eq_refl) Hle minimax_threat_OX) as [Hans Hmm].
  destruct valid_OX as [Hm Ho Hd].
  destruct (alphabeta_exact "O" "X" Hm Ho Hd d threat_board "O" alpha beta n'
              (fits_ten "O" "X" d threat_board "O" eq_refl
                 (or_introl eq_refl) Hle))
    as [k' Hab]; [lia..|].
  rewrite Hans in Hab. by exists (n' + k').
Qed.

Lemma threat_board_move_is_2_witness :
  ∃ k',
    minimax 10 threat_board "O" "O" "X" 0 = Ok ((1, Some 2%nat), 0 + 145) ∧
    alphabeta 10 threat_board "O" (-2) 2 "O" "X" 0 = Ok ((1, Some 2%nat), k').
Proof.
  apply threat_board_move_is_2; lia.
Defined.

(** C7.  On every board the pruned search visits no more nodes than the
    exhaustive search, whatever its window; on the empty board, called
    with the window (-2, 2) of the program, it visits fewer, whichever
    side moves first. *)
Theorem pruned_search_visits_no_more (me opp : string) (b : board)
    (p : string) (d : nat) (alpha beta n n' : Z) :
  valid_sides me opp → length b = 9%nat → to_move me opp p → (10 ≤ d)%nat →
  (∃ a a' k k',
     minimax d b p me opp n = Ok (a, n + k) ∧
     alphabeta d b p alpha beta me opp n' = Ok (a', n' + k') ∧
     k' ≤ k) ∧
  (∃ a a' k k',
     minimax d empty_board p me opp n = Ok (a, n + k) ∧
     alphabeta d empty_board p (-2) 2 me opp n' = Ok (a', n' + k') ∧
     k' < k).
Proof.
  intros Hv Hb Hp Hle. split.
  - destruct Hv as [Hm Ho Hd].
    pose proof (fits_ten me opp d b p Hb Hp Hle) as Hfit.
    destruct (alphabeta_spec me opp Hm Ho Hd d b p alpha beta n' Hfit)
      as (r & mv & k' & Hab & Hk & _).
    exists (answer_at me opp d b p), (r, mv), (nodes_at me opp d b p), k'.
    split_and!; [by apply minimax_returns | done | lia].
  - exists (0, Some 0%nat), (0, Some 0%nat), 549946, 18297.
    split_and!; [by apply minimax_empty_board | by apply alphabeta_empty_board
                | lia].
Qed.

Lemma pruned_search_visits_no_more_witness :
  (∃ a a' k k',
     minimax 10 threat_board "O" "O" "X" 0 = Ok (a, 0 + k) ∧
     alphabeta 10 threat_board "O" (-2) 2 "O" "X" 0 = Ok (a', 0 + k') ∧
     k' ≤ k) ∧
  (∃ a a' k k',
     minimax 10 empty_board "O" "O" "X" 0 = Ok (a, 0 + k) ∧
     alphabeta 10 empty_board "O" (-2) 2 "O" "X" 0 = Ok (a', 0 + k') ∧
     k' < k).
Proof.
  apply pruned_search_visits_no_more;
    [apply valid_OX | reflexivity | by left | lia].
Defined.

(** C8.  Neither search changes the list it is called on: after the call
    the list object of the caller has every cell it had, and so has every
    other list there was; each move is tried on a new object. *)
Theorem searches_leave_board_unchanged (me opp : string) (s : Store.state)
    (l : Store.loc) (b : board) (p : string) (d : nat) (alpha beta : Z) :
  valid_sides me opp → Store.heap s !! l = Some b → length b = 9%nat →
  to_move me opp p → (10 ≤ d)%nat →
  (∃ a s', Store.minimax d l p me opp s = Ok (a, s') ∧
     Store.heap s' !! l = Some b ∧ Store.heap s ⊆ Store.heap s') ∧
  (∃ a s', Store.alphabeta d l p alpha beta me opp s = Ok (a, s') ∧
     Store.heap s' !! l = Some b ∧ Store.heap s ⊆ Store.heap s').
Proof.
  intros [Hm Ho Hd] Hl Hb Hp Hle.
  pose proof (fits_ten me opp d b p Hb Hp Hle) as Hfit. split.
  - pose proof (store_minimax d l b p me opp s Hl) as Href.
    rewrite (minimax_returns me opp Hm Ho Hd d b p _ Hfit) in Href.
    unfold refines in Href.
    destruct (Store.minimax d l p me opp s) as [[a s']|e]; [|done].
    destruct Href as (_ & _ & _ & Hsub).
    exists a, s'. split_and!; [done | by eapply lookup_weaken | done].
  - pose proof (store_alphabeta d l b p alpha beta me opp s Hl) as Href.
    destruct (alphabeta_spec me opp Hm Ho Hd d b p alpha beta
                (Store.alphabeta_nodes s) Hfit) as (r & mv & k & Hab & _).
    rewrite Hab in Href. unfold refines in Href.
    destruct (Store.alphabeta d l p alpha beta me opp s) as [[a s']|e]; [|done].
    destruct Href as (_ & _ & _ & Hsub).
    exists a, s'. split_and!; [done | by eapply lookup_weaken | done].
Qed.

Lemma searches_leave_board_unchanged_witness :
  (∃ a s',
     Store.minimax 10 1%positive "O" "O" "X"
       (Store.State {[ 1%positive := threat_board ]} 0 0) = Ok (a, s') ∧
     Store.heap s' !! 1%positive = Some threat_board ∧
     Store.heap (Store.State {[ 1%positive := threat_board ]} 0 0)
       ⊆ Store.heap s') ∧
  (∃ a s',
     Store.alphabeta 10 1%positive "O" (-2) 2 "O" "X"
       (Store.State {[ 1%positive := threat_board ]} 0 0) = Ok (a, s') ∧
     Store.heap s' !! 1%positive = Some threat_board ∧
     Store.heap (Store.State {[ 1%positive := threat_board ]} 0 0)
       ⊆ Store.heap s').
Proof.
  apply searches_leave_board_unchanged;
    [apply valid_OX | reflexivity | reflexivity | by left | lia].
Defined.

(** C9, as the program has it.  Called on a terminal board, neither
    search raises: each returns the utility of the board with [None] for
    the move, after one visit. *)
Theorem search_on_terminal_board_returns_no_move (me opp : string)
    (b : board) (p : string) (d : nat) (alpha beta n n' : Z) :
  terminal b = Ok true → (1 ≤ d)%nat →
  ∃ u, utility b me opp = Ok u ∧
    minimax d b p me opp n = Ok ((u, None), n + 1) ∧
    alphabeta d b p alpha beta me opp n' = Ok ((u, None), n' + 1).
Proof.
  intros Ht Hd. destruct d as [|d]; [lia|].
  pose proof Ht as Hw. unfold terminal in Hw.
  apply bind_inv in Hw as (w & Hw & _).
  rewrite minimax_S, alphabeta_S, Ht. unfold utility. rewrite Hw. simpl.
  by eexists.
Qed.

Lemma search_on_terminal_board_returns_no_move_witness :
  ∃ u, utility won_board "O" "X" = Ok u ∧
    minimax 10 won_board "O" "O" "X" 0 = Ok ((u, None), 0 + 1) ∧
    alphabeta 10 won_board "O" (-2) 2 "O" "X" 0 = Ok ((u, None), 0 + 1).
Proof.
  apply search_on_terminal_board_returns_no_move; [reflexivity | lia].
Defined.

(** C9, as stated, fails: on the terminal board where X has the first
    row, both searches return, with the move [None], and raise nothing. *)
Lemma terminal_board_search_does_not_fail :
  terminal won_board = Ok true ∧
  minimax 10 won_board "O" "O" "X" 0 = Ok ((-1, None), 1) ∧
  alphabeta 10 won_board "O" (-2) 2 "O" "X" 0 = Ok ((-1, None), 1) ∧
  ¬ fails (minimax 10 won_board "O" "O" "X" 0) ∧
  ¬ fails (alphabeta 10 won_board "O" (-2) 2 "O" "X" 0).
Proof.
  split_and!; try reflexivity; intros [e He]; vm_compute in He; discriminate.
Qed.

(** C10.  On a board that is not terminal both searches, whatever the
    window of the pruned one, return a move that is not [None] and is one
    of the legal moves, an empty cell of the board, and a value among -1,
    0 and +1. *)
Theorem search_returns_legal_move (me opp : string) (b : board)
    (p : string) (d : nat) (alpha beta n n' : Z) :
  valid_sides me opp → length b = 9%nat → to_move me opp p → (10 ≤ d)%nat →
  terminal b = Ok false →
  ∃ v m k v' m' k',
    minimax d b p me opp n = Ok ((v, Some m), k) ∧
    m ∈ moves b ∧ b !! m = Some EMPTY ∧ (v = -1 ∨ v = 0 ∨ v = 1) ∧
    alphabeta d b p alpha beta me opp n' = Ok ((v', Some m'), k') ∧
    m' ∈ moves b ∧ b !! m' = Some EMPTY ∧ (v' = -1 ∨ v' = 0 ∨ v' = 1).
Proof.
  intros [Hm Ho Hd] Hb Hp Hle Ht.
  pose proof (fits_ten me opp d b p Hb Hp Hle) as Hfit.
  destruct (answer_at_range me opp Hm Ho Hd d b p Hfit)
    as (Hv & _ & t & Ht' & Hmv).
  rewrite Ht in Ht'. injection Ht' as <-. destruct Hmv as (m & Hmv & Hin).
  destruct (alphabeta_spec me opp Hm Ho Hd d b p alpha beta n' Hfit)
    as (r & mv' & k' & Hab & _ & Hr & _ & t & Ht' & Hmv').
  rewrite Ht in Ht'. injection Ht' as <-. destruct Hmv' as (m' & -> & Hin').
  exists (answer_at me opp d b p).1, m, (n + nodes_at me opp d b p), r, m',
    (n' + k').
  split_and!; try done; try (by apply elem_of_moves); try lia.
  rewrite (minimax_returns me opp Hm Ho Hd d b p n Hfit).
  destruct (answer_at me opp d b p) as [v mv]. simpl in *. by rewrite Hmv.
Qed.

Lemma search_returns_legal_move_witness :
  ∃ v m k v' m' k',
    minimax 10 threat_board "O" "O" "X" 0 = Ok ((v, Some m), k) ∧
    m ∈ moves threat_board ∧ threat_board !! m = Some EMPTY ∧
    (v = -1 ∨ v = 0 ∨ v = 1) ∧
    alphabeta 10 threat_board "O" (-2) 2 "O" "X" 0 = Ok ((v', Some m'), k') ∧
    m' ∈ moves threat_board ∧ threat_board !! m' = Some EMPTY ∧
    (v' = -1 ∨ v' = 0 ∨ v' = 1).
Proof.
  apply search_returns_legal_move;
    [apply valid_OX | reflexivity | by left | lia | reflexivity].
Defined.

(** * Further properties of the code *)

(** ** The rules *)

Lemma winner_in_first (lines : list (nat * nat * nat)) (b : board) :
  Forall (in_range b) lines →
  ∃ w, winner_in lines b = Ok w ∧
    match w with
    | Some x =>
        ∃ l1 l l2, lines = l1 ++ l :: l2 ∧ line_taken b l x ∧
          ∀ l' y, l' ∈ l1 → ¬ line_taken b l' y
    | None => ∀ l y, l ∈ lines → ¬ line_taken b l y
    end.
Proof.
  induction 1 as [|[[i j] k] rest (Hi & Hj & Hk) _ IH]; simpl in *.
  - exists None. split; [done|]. by intros l y ?%elem_of_nil.
  - destruct (getitem_Ok b i Hi) as (x & -> & Hx).
    destruct (getitem_Ok b j Hj) as (y & -> & Hy).
    destruct (getitem_Ok b k Hk) as (z & -> & Hz). simpl.
    assert (line_taken b (i, j, k) x ∨ ∀ v, ¬ line_taken b (i, j, k) v)
      as [Htaken|Hfree].
    { unfold line_taken. simpl.
      destruct (String.eqb_spec x EMPTY) as [->|Hne];
        [right; intros v (? & ? & _); congruence|].
      destruct (String.eqb_spec x y) as [<-|Hxy];
        [|right; intros v (? & ? & ? & _); congruence].
      destruct (String.eqb_spec x z) as [<-|Hxz];
        [by left | right; intros v (? & ? & ? & ?); congruence]. }
    + destruct Htaken as (Hne & _ & Hy' & Hz').
      simpl in *. assert (y = x) as -> by congruence.
      assert (z = x) as -> by congruence.
      destruct (String.eqb_spec x EMPTY); [done|]. simpl.
      rewrite String.eqb_refl.
      exists (Some x). split; [done|]. exists [], (i, j, k), rest.
      split_and!; [done | by split_and! |]. by intros l' v ?%elem_of_nil.
    + destruct IH as (w & Hw & Hspec).
      exists w. split.
      { destruct (String.eqb_spec x EMPTY) as [->|Hne]; simpl; [done|].
        destruct (String.eqb_spec x y) as [<-|Hxy]; [|done].
        destruct (String.eqb_spec x z) as [<-|Hxz]; [|done].
        destruct (Hfree x). by split_and!. }
      destruct w as [v|].
      * destruct Hspec as (l1 & l & l2 & -> & Hl & Hl1).
        exists ((i, j, k) :: l1), l, l2. split_and!; [done..|].
        intros l' u [->|?]%elem_of_cons; [apply Hfree | by apply Hl1].
      * intros l u [->|?]%elem_of_cons; [apply Hfree | by apply Hspec].
Qed.

(** X1.  [moves] lists the indices of the empty cells and nothing else,
    each once, in ascending order. *)
Theorem moves_lists_empty_cells (b : board) :
  (∀ m, m ∈ moves b ↔ b !! m = Some EMPTY) ∧
  StronglySorted lt (moves b) ∧ NoDup (moves b).
Proof.
  split_and!.
  - apply elem_of_moves.
  - apply moves_sorted.
  - pose proof (moves_sorted b) as Hs.
    induction Hs as [|m ms _ IH Hall]; constructor; [|done].
    intros Hin. rewrite Forall_forall in Hall. specialize (Hall m Hin). lia.
Qed.

(** X2.  On a board of nine cells [winner] returns the mark of the first
    of the eight lines whose three cells hold the same mark, and [None]
    exactly when no line is held by one mark. *)
Theorem winner_finds_first_line (b : board) :
  length b = 9%nat →
  ∃ w, winner b = Ok w ∧
    match w with
    | Some x =>
        ∃ l1 l l2, LINES = l1 ++ l :: l2 ∧ line_taken b l x ∧
          ∀ l' y, l' ∈ l1 → ¬ line_taken b l' y
    | None => ∀ l y, l ∈ LINES → ¬ line_taken b l y
    end.
Proof. intros Hb. by apply winner_in_first, LINES_in_range. Qed.

Lemma winner_finds_first_line_witness :
  ∃ w, winner won_board = Ok w ∧
    match w with
    | Some x =>
        ∃ l1 l l2, LINES = l1 ++ l :: l2 ∧ line_taken won_board l x ∧
          ∀ l' y, l' ∈ l1 → ¬ line_taken won_board l' y
    | None => ∀ l y, l ∈ LINES → ¬ line_taken won_board l y
    end.
Proof. apply winner_finds_first_line. reflexivity. Defined.

Lemma getitem_cases (b : board) (i : nat) :
  (∃ x, getitem b i = Ok x) ∨ getitem b i = Raise IndexError.
Proof. unfold getitem. destruct (b !! i); [left; by eexists | by right]. Qed.

Ltac read_cell b i :=
  let x := fresh "x" in
  let H := fresh "H" in
  destruct (getitem_cases b i) as [[x H]|H]; rewrite H; simpl; [|by left].

(** X3.  [winner] reads the cells 0 to 8: it raises nothing on a list of
    at least nine cells, and on a list of fewer than seven cells it never
    answers [None]; it finds a line among the cells there are or raises
    [IndexError]. *)
Theorem winner_index_bounds (b : board) :
  ((9 ≤ length b)%nat → ∃ w, winner b = Ok w) ∧
  ((length b < 7)%nat →
   winner b = Raise IndexError ∨ ∃ x, winner b = Ok (Some x)).
Proof.
  split.
  - intros Hb. apply winner_in_total. unfold LINES, in_range.
    repeat constructor; simpl; lia.
  - intros Hb. unfold winner, LINES. cbn [winner_in].
    assert (getitem b 6 = Raise IndexError) as H6.
    { unfold getitem. rewrite lookup_ge_None_2; [done | lia]. }
    rewrite H6.
    assert (∀ k : result (option string),
              (k = Raise IndexError ∨ ∃ x, k = Ok (Some x)) →
              (x <- getitem b 3 ;;
               if negb (String.eqb x EMPTY) then
                 y <- getitem b 4 ;;
                 if String.eqb x y then
                   z <- getitem b 5 ;;
                   if String.eqb y z then Ok (Some x) else k
                 else k
               else k) = Raise IndexError ∨
              ∃ v, (x <- getitem b 3 ;;
                    if negb (String.eqb x EMPTY) then
                      y <- getitem b 4 ;;
                      if String.eqb x y then
                        z <- getitem b 5 ;;
                        if String.eqb y z then Ok (Some x) else k
                      else k
                    else k) = Ok (Some v)) as Hsecond.
    { intros k Hk. read_cell b 3%nat.
      destruct (negb (String.eqb x EMPTY)); [|done].
      read_cell b 4%nat. destruct (String.eqb x x0); [|done].
      read_cell b 5%nat. destruct (String.eqb x0 x1); [|done].
      right. by eexists. }
    simpl in Hsecond. specialize (Hsecond _ (or_introl eq_refl)).
    read_cell b 0%nat. destruct (negb (String.eqb x EMPTY)); [|done].
    read_cell b 1%nat. destruct (String.eqb x x0); [|done].
    read_cell b 2%nat. destruct (String.eqb x0 x1); [|done].
    right. by eexists.
Qed.

(** X4.  The game is zero-sum: what [utility] gives one side it takes
    from the other. *)
Theorem utility_zero_sum (me opp : string) (b : board) (u : Z) :
  me ≠ opp → utility b me opp = Ok u → utility b opp me = Ok (- u).
Proof.
  intros Hd. unfold utility.
  destruct (winner b) as [[x|]|]; simpl; [| |done]; intros [= <-]; [|done].
  destruct (String.eqb_spec x me) as [Hme|Hme],
    (String.eqb_spec x opp) as [Hopp|Hopp]; try done. congruence.
Qed.

Lemma utility_zero_sum_witness :
  utility won_board "X" "O" = Ok (- -1).
Proof. apply utility_zero_sum; [discriminate | reflexivity]. Defined.

Lemma filter_all {A : Type} (P : A → Prop) `{∀ x, Decision (P x)}
    (l : list A) :
  (∀ x, x ∈ l → P x) → filter P l = l.
Proof.
  induction l as [|x l IH]; intros Hall; [done|].
  rewrite filter_cons_True by (apply Hall; left).
  f_equal. apply IH. intros y Hy. apply Hall. by right.
Qed.

Lemma moves_from_after_insert (i : nat) (b : board) (m : nat) (p : string) :
  p ≠ EMPTY →
  moves_from i (<[m := p]> b) = filter (λ j, j ≠ (i + m)%nat) (moves_from i b).
Proof.
  intros Hp. revert i m. induction b as [|v vs IH]; intros i m; [done|].
  destruct m as [|m]; simpl.
  - destruct (String.eqb_spec p EMPTY) as [|_]; [done|].
    assert (filter (λ j, j ≠ (i + 0)%nat) (moves_from (S i) vs) =
              moves_from (S i) vs) as Hkeep.
    { apply filter_all. intros j (k & -> & _)%elem_of_moves_from. lia. }
    destruct (String.eqb v EMPTY); [|done].
    rewrite filter_cons_False by (intros Hne; apply Hne; lia). done.
  - rewrite (IH (S i) m).
    replace (S i + m)%nat with (i + S m)%nat by lia.
    destruct (String.eqb v EMPTY); [|done].
    rewrite filter_cons_True by lia. done.
Qed.

(** X5.  An assignment of a mark to a cell removes that cell from the
    legal moves and changes nothing else in them; the list keeps its
    length.  Outside the list the assignment raises [IndexError]. *)
Theorem moves_after_setitem (b : board) (m : nat) (p : string) :
  p ≠ EMPTY →
  if decide (m < length b)%nat then
    ∃ b2, setitem b m p = Ok b2 ∧ length b2 = length b ∧
      b2 !! m = Some p ∧
      moves b2 = filter (λ j, j ≠ m) (moves b)
  else setitem b m p = Raise IndexError.
Proof.
  intros Hp. unfold setitem. destruct (decide (m < length b)%nat); [|done].
  eexists. split_and!; [done | apply length_insert
                       | by apply list_lookup_insert_eq |].
  unfold moves. by rewrite moves_from_after_insert.
Qed.

Lemma moves_after_setitem_witness :
  if decide (2 < length threat_board)%nat then
    ∃ b2, setitem threat_board 2 "O" = Ok b2 ∧
      length b2 = length threat_board ∧ b2 !! 2%nat = Some "O" ∧
      moves b2 = filter (λ j, j ≠ 2%nat) (moves threat_board)
  else setitem threat_board 2 "O" = Raise IndexError.
Proof. apply moves_after_setitem. discriminate. Defined.

(** ** The searches seen from the other side *)

Lemma utility_swap (me opp : string) (b : board) :
  me ≠ opp →
  utility b opp me = (u <- utility b me opp ;; Ok (- u)).
Proof.
  intros Hd. unfold utility. destruct (winner b) as [[x|]|]; simpl; [|done..].
  destruct (String.eqb_spec x me) as [Hme|Hme],
    (String.eqb_spec x opp) as [Hopp|Hopp]; try done. congruence.
Qed.

Lemma minimax_loop_swap rec rec' (b : board) (p me opp : string)
    (ms : list nat) (bv : Z) (bm : option nat) (n : Z) :
  me ≠ opp → to_move me opp p →
  (∀ b2 q k, to_move me opp q → rec' b2 q k = negate (rec b2 q k)) →
  minimax_loop rec' b p opp me ms (- bv) bm n =
    negate (minimax_loop rec b p me opp ms bv bm n).
Proof.
  intros Hd Hp Hrec. revert bv bm n.
  induction ms as [|m ms IH]; intros bv bm n; [done|].
  cbn [minimax_loop]. destruct (setitem b m p) as [b2|]; [|done]. cbn [bind].
  destruct (to_move_tests me opp Hd p Hp) as [(-> & Hme & Ho)|(-> & Hme & Ho)];
    rewrite Hme, Ho.
  - rewrite (Hrec b2 opp n (or_intror eq_refl)).
    destruct (rec b2 opp n) as [[[v mv] k]|]; [|done]. simpl.
    destruct (Z.gtb_spec v bv), (Z.ltb_spec (- v) (- bv)); try lia; apply IH.
  - rewrite (Hrec b2 me n (or_introl eq_refl)).
    destruct (rec b2 me n) as [[[v mv] k]|]; [|done]. simpl.
    destruct (Z.ltb_spec v bv), (Z.gtb_spec (- v) (- bv)); try lia; apply IH.
Qed.

Lemma minimax_swap (d : nat) (b : board) (p me opp : string) (n : Z) :
  me ≠ opp → to_move me opp p →
  minimax d b p opp me n = negate (minimax d b p me opp n).
Proof.
  intros Hd. revert b p n. induction d as [|d IH]; intros b p n Hp; [done|].
  rewrite !minimax_S, (utility_swap me opp b Hd).
  destruct (terminal b) as [[]|]; [| |done]; cbn [bind].
  - by destruct (utility b me opp).
  - destruct (to_move_tests me opp Hd p Hp) as [(-> & Hme & Ho)|(-> & Hme & Ho)];
      rewrite Hme, Ho.
    + apply (minimax_loop_swap _ _ b me me opp (moves b) (-2) None (n + 1) Hd Hp).
      intros b2 q k Hq. by apply IH.
    + apply (minimax_loop_swap _ _ b opp me opp (moves b) 2 None (n + 1) Hd Hp).
      intros b2 q k Hq. by apply IH.
Qed.

Lemma alphabeta_max_min_swap rec rec' (b : board) (p q : string)
    (ms : list nat) (best : answer) (alpha beta n : Z) :
  (∀ b2 a c k, rec' b2 q a c k = negate (rec b2 q (- c) (- a) k)) →
  alphabeta_max_loop rec' b p q ms (- best.1, best.2) alpha beta n =
    negate (alphabeta_min_loop rec b p q ms best (- beta) (- alpha) n).
Proof.
  intros Hrec. revert best alpha n.
  induction ms as [|m ms IH]; intros [bv bm] alpha n; [done|].
  cbn [alphabeta_max_loop alphabeta_min_loop].
  destruct (setitem b m p) as [b2|]; [|done]. cbn [bind].
  rewrite Hrec.
  destruct (rec b2 q (- beta) (- alpha) n) as [[[v mv] k]|]; [|done]. simpl.
  replace (Z.min (- alpha) v) with (- Z.max alpha (- v)) by lia.
  destruct (Z.geb_spec (Z.max alpha (- v)) beta),
    (Z.geb_spec (- beta) (- Z.max alpha (- v))); try lia.
  - destruct (Z.gtb_spec (- v) (- bv)), (Z.ltb_spec v bv); try lia; done.
  - destruct (Z.gtb_spec (- v) (- bv)), (Z.ltb_spec v bv); try lia.
    + apply (IH (v, Some m)).
    + apply (IH (bv, bm)).
Qed.

Lemma alphabeta_min_max_swap rec rec' (b : board) (p q : string)
    (ms : list nat) (best : answer) (alpha beta n : Z) :
  (∀ b2 a c k, rec' b2 q a c k = negate (rec b2 q (- c) (- a) k)) →
  alphabeta_min_loop rec' b p q ms (- best.1, best.2) alpha beta n =
    negate (alphabeta_max_loop rec b p q ms best (- beta) (- alpha) n).
Proof.
  intros Hrec. revert best beta n.
  induction ms as [|m ms IH]; intros [bv bm] beta n; [done|].
  cbn [alphabeta_max_loop alphabeta_min_loop].
  destruct (setitem b m p) as [b2|]; [|done]. cbn [bind].
  rewrite Hrec.
  destruct (rec b2 q (- beta) (- alpha) n) as [[[v mv] k]|]; [|done]. simpl.
  replace (Z.max (- beta) v) with (- Z.min beta (- v)) by lia.
  destruct (Z.geb_spec alpha (Z.min beta (- v))),
    (Z.geb_spec (- Z.min beta (- v)) (- alpha)); try lia.
  - destruct (Z.ltb_spec (- v) (- bv)), (Z.gtb_spec v bv); try lia; done.
  - destruct (Z.ltb_spec (- v) (- bv)), (Z.gtb_spec v bv); try lia.
    + apply (IH (v, Some m)).
    + apply (IH (bv, bm)).
Qed.

Lemma alphabeta_swap (d : nat) (b : board) (p : string) (alpha beta : Z)
    (me opp : string) (n : Z) :
  me ≠ opp → to_move me opp p →
  alphabeta d b p alpha beta opp me n =
    negate (alphabeta d b p (- beta) (- alpha) me opp n).
Proof.
  intros Hd. revert b p alpha beta n.
  induction d as [|d IH]; intros b p alpha beta n Hp; [done|].
  rewrite !alphabeta_S, (utility_swap me opp b Hd).
  destruct (terminal b) as [[]|]; [| |done]; cbn [bind].
  - by destruct (utility b me opp).
  - destruct (to_move_tests me opp Hd p Hp) as [(-> & Hme & Ho)|(-> & Hme & Ho)];
      rewrite Hme, Ho.
    + apply (alphabeta_min_max_swap _ _ b me opp (moves b) (-2, None)).
      intros b2 a c k. apply IH. by right.
    + apply (alphabeta_max_min_swap _ _ b opp me (moves b) (2, None)).
      intros b2 a c k. apply IH. by left.
Qed.

(** X6.  The searches are symmetric in the two sides: called with the
    roles of [me] and [opp] exchanged (and, for the pruned search, the
    window reflected), they return the negated value with the same move
    after the same number of visits, or raise the same exception. *)
Theorem searches_are_zero_sum (me opp : string) (d : nat) (b : board)
    (p : string) (alpha beta n : Z) :
  me ≠ opp → to_move me opp p →
  minimax d b p opp me n = negate (minimax d b p me opp n) ∧
  alphabeta d b p alpha beta opp me n =
    negate (alphabeta d b p (- beta) (- alpha) me opp n).
Proof.
  intros Hd Hp. split; [by apply minimax_swap | by apply alphabeta_swap].
Qed.

Lemma searches_are_zero_sum_witness :
  minimax 10 threat_board "O" "X" "O" 0 =
    negate (minimax 10 threat_board "O" "O" "X" 0) ∧
  alphabeta 10 threat_board "O" (-2) 2 "X" "O" 0 =
    negate (alphabeta 10 threat_board "O" (- 2) (- -2) "O" "X" 0).
Proof. apply searches_are_zero_sum; [discriminate | by left]. Defined.

(** ** The window, the counters and the size of the search *)

(** X7.  For every window [alpha < beta] the value of the pruned search
    is the value of the exhaustive search when that lies inside the
    window, and otherwise lies on the same side of the window, between
    the bound and the exact value. *)
Theorem pruned_search_respects_window (me opp : string) (b : board)
    (p : string) (d : nat) (alpha beta n n' : Z) :
  valid_sides me opp → length b = 9%nat → to_move me opp p → (10 ≤ d)%nat →
  alpha < beta →
  ∃ v mv k r mv' k',
    minimax d b p me opp n = Ok ((v, mv), k) ∧
    alphabeta d b p alpha beta me opp n' = Ok ((r, mv'), k') ∧
    (v ≤ alpha → v ≤ r ≤ alpha) ∧
    (beta ≤ v → beta ≤ r ≤ v) ∧
    (alpha < v < beta → r = v).
Proof.
  intros [Hm Ho Hd] Hb Hp Hle Hab.
  pose proof (fits_ten me opp d b p Hb Hp Hle) as Hfit.
  destruct (alphabeta_spec me opp Hm Ho Hd d b p alpha beta n' Hfit)
    as (r & mv' & k' & Hcall & _ & _ & Hbound & _).
  destruct (Hbound Hab) as (H1 & H2 & H3).
  exists (answer_at me opp d b p).1, (answer_at me opp d b p).2,
    (n + nodes_at me opp d b p), r, mv', (n' + k').
  split_and!; try done.
  rewrite (minimax_returns me opp Hm Ho Hd d b p n Hfit).
  by destruct (answer_at me opp d b p).
Qed.

Lemma pruned_search_respects_window_witness :
  ∃ v mv k r mv' k',
    minimax 10 threat_board "O" "O" "X" 0 = Ok ((v, mv), k) ∧
    alphabeta 10 threat_board "O" (-1) 0 "O" "X" 0 = Ok ((r, mv'), k') ∧
    (v ≤ -1 → v ≤ r ≤ -1) ∧
    (0 ≤ v → 0 ≤ r ≤ v) ∧
    (-1 < v < 0 → r = v).
Proof.
  apply pruned_search_respects_window;
    [apply valid_OX | reflexivity | by left | lia | lia].
Defined.

Lemma tree_bound_pos (e : nat) : 1 ≤ tree_bound e.
Proof. induction e as [|e IH]; simpl; [lia|]. nia. Qed.

Lemma sum_over_bound (ck : nat → Z) (ms : list nat) (c : Z) :
  (∀ m, m ∈ ms → ck m ≤ c) → sum_over ck ms ≤ Z.of_nat (length ms) * c.
Proof.
  induction ms as [|m ms IH]; intros Hall; simpl length; simpl sum_over; [lia|].
  pose proof (Hall m ltac:(left)).
  assert (sum_over ck ms ≤ Z.of_nat (length ms) * c)
    by (apply IH; intros; apply Hall; by right).
  lia.
Qed.

Lemma nodes_at_bound (me opp : string) (d : nat) (b : board) (p : string) :
  me ≠ EMPTY → opp ≠ EMPTY → me ≠ opp → fits me opp d b p →
  nodes_at me opp d b p ≤ tree_bound (length (moves b)).
Proof.
  intros Hm Ho Hd. revert b p. induction d as [|d IH]; intros b p Hfit.
  { destruct Hfit as (_ & _ & ?). lia. }
  destruct (terminal_total b) as [t Ht]; [apply Hfit|].
  rewrite (nodes_at_S me opp Hm Ho Hd d b p t Hfit Ht). unfold node_count.
  destruct t; [apply tree_bound_pos|].
  destruct (moves b) as [|m0 ms] eqn:Hms.
  { by apply terminal_false_moves in Ht. }
  rewrite <- Hms. replace (length (moves b)) with (S (length ms))
    by (by rewrite Hms).
  cbn [tree_bound].
  pose proof (sum_over_bound (child_nodes me opp d b p) (moves b)
                (tree_bound (length ms))) as Hsum.
  rewrite Hms in Hsum at 2. simpl length in Hsum.
  assert (sum_over (child_nodes me opp d b p) (moves b)
            ≤ Z.of_nat (S (length ms)) * tree_bound (length ms)); [|lia].
  apply Hsum. intros m Hin. unfold child_nodes.
  pose proof (IH _ _ (fits_play me opp Hm Ho d b p m Hfit Hin)) as Hc.
  destruct Hfit as (_ & Hp & _).
  pose proof (moves_insert b m p (to_move_not_empty me opp Hm Ho p Hp) Hin)
    as Hlen.
  rewrite Hms in Hlen. simpl in Hlen. injection Hlen as Hlen.
  unfold play in *. by rewrite <- Hlen in Hc.
Qed.

(** X8.  A search on a board with [e] empty cells makes at most
    [tree_bound e] calls, so at most 986410 on any board; the pruned
    search, whatever its window, stays within the same bound. *)
Theorem searches_visit_bounded (me opp : string) (b : board) (p : string)
    (d : nat) (alpha beta n n' : Z) :
  valid_sides me opp → length b = 9%nat → to_move me opp p → (10 ≤ d)%nat →
  ∃ a a' k k',
    minimax d b p me opp n = Ok (a, n + k) ∧
    alphabeta d b p alpha beta me opp n' = Ok (a', n' + k') ∧
    1 ≤ k' ≤ k ∧ k ≤ tree_bound (length (moves b)) ∧ k ≤ 986410.
Proof.
  intros [Hm Ho Hd] Hb Hp Hle.
  pose proof (fits_ten me opp d b p Hb Hp Hle) as Hfit.
  destruct (alphabeta_spec me opp Hm Ho Hd d b p alpha beta n' Hfit)
    as (r & mv & k' & Hab & Hk & _).
  pose proof (nodes_at_bound me opp d b p Hm Ho Hd Hfit) as Hbound.
  exists (answer_at me opp d b p), (r, mv), (nodes_at me opp d b p), k'.
  split_and!; try done; try lia.
  - by apply minimax_returns.
  - assert (tree_bound (length (moves b)) ≤ tree_bound 9); [|
      change (tree_bound 9) with 986410 in *; lia].
    pose proof (moves_from_length 0 b) as Hlen. rewrite Hb in Hlen.
    fold (moves b) in Hlen.
    assert (∀ i j, (i ≤ j)%nat → tree_bound i ≤ tree_bound j) as Hmono.
    { intros i j Hij. induction Hij as [|j _ IH]; [lia|].
      pose proof (tree_bound_pos j). cbn [tree_bound]. nia. }
    by apply Hmono.
Qed.

Lemma searches_visit_bounded_witness :
  ∃ a a' k k',
    minimax 10 threat_board "O" "O" "X" 0 = Ok (a, 0 + k) ∧
    alphabeta 10 threat_board "O" (-2) 2 "O" "X" 0 = Ok (a', 0 + k') ∧
    1 ≤ k' ≤ k ∧ k ≤ tree_bound (length (moves threat_board)) ∧ k ≤ 986410.
Proof.
  apply searches_visit_bounded;
    [apply valid_OX | reflexivity | by left | lia].
Defined.

Lemma minimax_loop_shift rec (b : board) (p me opp : string)
    (ms : list nat) (bv : Z) (bm : option nat) (n j : Z) :
  (∀ b2 q k, rec b2 q (k + j) = shift j (rec b2 q k)) →
  minimax_loop rec b p me opp ms bv bm (n + j) =
    shift j (minimax_loop rec b p me opp ms bv bm n).
Proof.
  intros Hrec. revert bv bm n.
  induction ms as [|m ms IH]; intros bv bm n; [done|].
  cbn [minimax_loop]. destruct (setitem b m p) as [b2|]; [|done].
  cbn [bind]. rewrite Hrec.
  destruct (rec b2 _ n) as [[[v mv] k]|]; [|done]. simpl.
  repeat case_match; apply IH.
Qed.

Lemma minimax_shift (d : nat) (b : board) (p me opp : string) (n j : Z) :
  minimax d b p me opp (n + j) = shift j (minimax d b p me opp n).
Proof.
  revert b p n. induction d as [|d IH]; intros b p n; [done|].
  rewrite !minimax_S.
  destruct (terminal b) as [[]|]; [| |done]; cbn [bind].
  - destruct (utility b me opp); [|done]. simpl. do 2 f_equal. lia.
  - replace (n + j + 1) with (n + 1 + j) by lia.
    apply minimax_loop_shift. intros b2 q k. apply IH.
Qed.

(** X9.  The counters are instrumentation only: the value a counter has
    when a search is called changes neither the answer nor the exception,
    and is added to what the search counts. *)
Theorem counters_do_not_steer (d : nat) (b : board) (p : string)
    (alpha beta : Z) (me opp : string) (n j : Z) :
  minimax d b p me opp (n + j) = shift j (minimax d b p me opp n) ∧
  alphabeta d b p alpha beta me opp (n + j) =
    shift j (alphabeta d b p alpha beta me opp n).
Proof. split; [apply minimax_shift | apply alphabeta_shift]. Qed.

(** X10.  The searches only compare the marks: on a board that holds the
    marks of the two sides, writing the sides as two other marks, on the
    board and in the arguments, changes neither answer nor count. *)
Theorem searches_only_compare_marks (me opp me' opp' : string) (d : nat)
    (b : board) (p : string) (alpha beta n : Z) :
  valid_sides me opp → valid_sides me' opp' →
  marks me opp b → to_move me opp p →
  minimax d (rename me opp me' opp' <$> b) (rename me opp me' opp' p)
      me' opp' n =
    minimax d b p me opp n ∧
  alphabeta d (rename me opp me' opp' <$> b) (rename me opp me' opp' p)
      alpha beta me' opp' n =
    alphabeta d b p alpha beta me opp n.
Proof.
  intros Hv Hv' Hb Hp.
  destruct (rename_sides me opp me' opp' Hv Hv') as (He & Hme & Hopp & Hinj).
  split.
  - rewrite <- (minimax_renamed (rename me opp me' opp') me opp He Hinj d
                 b p n Hb Hp).
    by rewrite Hme, Hopp.
  - rewrite <- (alphabeta_renamed (rename me opp me' opp') me opp He Hinj d
                 b p alpha beta n Hb Hp).
    by rewrite Hme, Hopp.
Qed.

Lemma searches_only_compare_marks_witness :
  minimax 10 (rename "O" "X" "a" "b" <$> threat_board)
      (rename "O" "X" "a" "b" "O") "a" "b" 0 =
    minimax 10 threat_board "O" "O" "X" 0 ∧
  alphabeta 10 (rename "O" "X" "a" "b" <$> threat_board)
      (rename "O" "X" "a" "b" "O") (-2) 2 "a" "b" 0 =
    alphabeta 10 threat_board "O" (-2) 2 "O" "X" 0.
Proof.
  apply searches_only_compare_marks;
    [apply valid_OX | by split | | by left].
  unfold marks, threat_board.
  repeat first [apply List.Forall_nil
               | apply List.Forall_cons; [unfold mark_of; auto|]].
Defined.

(** ** Lists as objects, and the contract on the side to move *)

(** X11.  Run on list objects, with the copies made by [board[:]] and
    the assignments in place, each search does what it does on values:
    the same answer or the same exception, the same count in its own
    counter, the other counter untouched, and every list that was there
    unchanged. *)
Theorem searches_on_objects_agree (d : nat) (l : Store.loc) (b : board)
    (p : string) (alpha beta : Z) (me opp : string) (s : Store.state) :
  Store.heap s !! l = Some b →
  refines Store.minimax_nodes Store.alphabeta_nodes s
    (minimax d b p me opp (Store.minimax_nodes s))
    (Store.minimax d l p me opp s) ∧
  refines Store.alphabeta_nodes Store.minimax_nodes s
    (alphabeta d b p alpha beta me opp (Store.alphabeta_nodes s))
    (Store.alphabeta d l p alpha beta me opp s).
Proof. intros Hl. split; [by apply store_minimax | by apply store_alphabeta]. Qed.

Lemma searches_on_objects_agree_witness :
  refines Store.minimax_nodes Store.alphabeta_nodes
    (Store.State {[ 1%positive := threat_board ]} 0 0)
    (minimax 10 threat_board "O" "O" "X"
       (Store.minimax_nodes (Store.State {[ 1%positive := threat_board ]} 0 0)))
    (Store.minimax 10 1%positive "O" "O" "X"
       (Store.State {[ 1%positive := threat_board ]} 0 0)) ∧
  refines Store.alphabeta_nodes Store.minimax_nodes
    (Store.State {[ 1%positive := threat_board ]} 0 0)
    (alphabeta 10 threat_board "O" (-2) 2 "O" "X"
       (Store.alphabeta_nodes
          (Store.State {[ 1%positive := threat_board ]} 0 0)))
    (Store.alphabeta 10 1%positive "O" (-2) 2 "O" "X"
       (Store.State {[ 1%positive := threat_board ]} 0 0)).
Proof. apply searches_on_objects_agree. reflexivity. Defined.

Lemma winner_terminal (b : board) (x : string) :
  winner b = Ok (Some x) → terminal b = Ok true.
Proof. unfold terminal. by intros ->. Qed.

(** X12.  A side that can complete a line with its next move has the
    best value of the game: the searches return +1 when that side is the
    searching side, and -1 when it is the opponent. *)
Theorem immediate_win_is_valued (me opp : string) (b : board) (p : string)
    (d : nat) (alpha beta n n' : Z) (m : nat) :
  valid_sides me opp → length b = 9%nat → to_move me opp p → (10 ≤ d)%nat →
  alpha < -1 → 1 < beta →
  terminal b = Ok false → m ∈ moves b → winner (play b m p) = Ok (Some p) →
  ∃ mv k k',
    minimax d b p me opp n =
      Ok ((if String.eqb p me then 1 else -1, mv), k) ∧
    alphabeta d b p alpha beta me opp n' =
      Ok ((if String.eqb p me then 1 else -1, mv), k').
Proof.
  intros [Hm Ho Hd] Hb Hp Hle Ha Hc Ht Hin Hwin.
  pose proof (fits_ten me opp d b p Hb Hp Hle) as Hfit.
  destruct (answer_at_game_value me opp Hm Ho Hd d b p Hfit) as [Hs Hh].
  destruct (answer_at_range me opp Hm Ho Hd d b p Hfit) as (Hr & _).
  destruct (alphabeta_exact me opp Hm Ho Hd d b p alpha beta n' Hfit)
    as [k' Hab]; [lia..|].
  pose proof (winner_terminal _ _ Hwin) as Hend.
  assert ((answer_at me opp d b p).1 = if String.eqb p me then 1 else -1)
    as Hval.
  { destruct (to_move_tests me opp Hd p Hp) as [(-> & Hme & Hopp)|(-> & Hme & Hopp)];
      rewrite Hme.
    - assert (can_secure me opp b me 1) as Hone.
      { eapply secure_own; eauto. eapply secure_end; eauto; [|reflexivity].
        unfold utility. rewrite Hwin. simpl. by rewrite String.eqb_refl. }
      pose proof (secure_le_hold me opp Hd b me _ _ Hone Hh). lia.
    - assert (can_hold me opp b opp (-1)) as Hone.
      { eapply hold_own; eauto. eapply hold_end; eauto; [|reflexivity].
        unfold utility. rewrite Hwin. simpl. by rewrite Hme, String.eqb_refl. }
      pose proof (secure_le_hold me opp Hd b opp _ _ Hs Hone). lia. }
  exists (answer_at me opp d b p).2, (n + nodes_at me opp d b p), (n' + k').
  rewrite <- Hval. split.
  - rewrite (minimax_returns me opp Hm Ho Hd d b p n Hfit).
    by destruct (answer_at me opp d b p).
  - rewrite Hab. by destruct (answer_at me opp d b p).
Qed.

Lemma immediate_win_is_valued_witness :
  ∃ mv k k',
    minimax 10 threat_board "O" "O" "X" 0 =
      Ok ((if String.eqb "O" "O" then 1 else -1, mv), k) ∧
    alphabeta 10 threat_board "O" (-2) 2 "O" "X" 0 =
      Ok ((if String.eqb "O" "O" then 1 else -1, mv), k').
Proof.
  apply (immediate_win_is_valued "O" "X" threat_board "O" 10 (-2) 2 0 0 5);
    [apply valid_OX | reflexivity | by left | lia | lia | lia | reflexivity
    | | reflexivity].
  apply elem_of_moves. reflexivity.
Defined.

Lemma minimax_loop_third rec (b : board) (p me opp : string)
    (ca : nat → answer) (ck : nat → Z) (ms : list nat) (bv : Z)
    (bm : option nat) (n : Z) :
  String.eqb p me = false → String.eqb p opp = false →
  ms ⊆ moves b →
  (∀ m k, m ∈ moves b → rec (play b m p) me k = Ok (ca m, k + ck m)) →
  minimax_loop rec b p me opp ms bv bm n = Ok ((bv, bm), n + sum_over ck ms).
Proof.
  intros Hme Hopp Hms Hrec. revert n Hms.
  induction ms as [|m ms IH]; intros n Hms; simpl.
  - do 2 f_equal. lia.
  - assert (m ∈ moves b) as Hm by (apply Hms; left).
    rewrite (setitem_Ok b m p Hm). simpl. rewrite Hme, Hopp.
    rewrite (Hrec m n Hm). simpl. destruct (ca m) as [v mv]. simpl.
    rewrite IH by (intros x Hx; apply Hms; by right).
    do 2 f_equal. lia.
Qed.

(** X13.  The side to move has to be one of the two sides.  With a third
    mark to move on a board that is not terminal, the exhaustive search
    tries every move and keeps none: it returns the value 2 and the move
    [None], which is neither a value of the game nor a move; the pruned
    search takes the third mark for the opponent and returns a legal
    move. *)
Theorem third_mark_to_move (me opp : string) (b : board) (p : string)
    (d : nat) (alpha beta n n' : Z) :
  valid_sides me opp → length b = 9%nat →
  p ≠ me → p ≠ opp → p ≠ EMPTY → (10 ≤ d)%nat →
  terminal b = Ok false →
  ∃ k r m k',
    minimax d b p me opp n = Ok ((2, None), k) ∧
    alphabeta d b p alpha beta me opp n' = Ok ((r, Some m), k') ∧
    m ∈ moves b ∧ -1 ≤ r ≤ 1.
Proof.
  intros [Hm Ho Hd] Hb Hpm Hpo Hpe Hle Ht.
  destruct d as [|d]; [lia|].
  assert (String.eqb p me = false) as Hme by by apply String.eqb_neq.
  assert (String.eqb p opp = false) as Hopp by by apply String.eqb_neq.
  assert (∀ m, m ∈ moves b → fits me opp d (play b m p) me) as Hfit.
  { intros m Hin. split_and!; [by rewrite length_play | by left |].
    pose proof (moves_insert b m p Hpe Hin) as Hlen.
    pose proof (moves_from_length 0 b) as Hmax. fold (moves b) in Hmax.
    unfold play. lia. }
  rewrite minimax_S, alphabeta_S, Ht. cbn [bind]. rewrite Hme.
  rewrite (minimax_loop_third _ b p me opp
             (λ m, answer_at me opp d (play b m p) me)
             (λ m, nodes_at me opp d (play b m p) me)
             (moves b) 2 None (n + 1) Hme Hopp); [|done|].
  2:{ intros m k Hin. by apply minimax_returns, Hfit. }
  destruct (alphabeta_min_loop_spec me p
              (λ b2 q a c k, alphabeta d b2 q a c me opp k) b
              (λ m, (answer_at me opp d (play b m p) me).1)
              (λ m, nodes_at me opp d (play b m p) me)
              (moves b) (2, None) alpha beta (n' + 1))
    as ([r mv] & k' & Hab & _ & (m & Hmv & Hin & Hr) & _).
  - intros m Hin a c k.
    destruct (alphabeta_spec me opp Hm Ho Hd d _ _ a c k (Hfit m Hin))
      as (r & mv & j & -> & ? & ? & ? & _).
    by exists r, mv, j.
  - done.
  - left. split; [simpl; lia | by apply terminal_false_moves].
  - simpl in Hmv. subst mv. rewrite Hab.
    by eexists _, r, m, _.
Qed.

Lemma third_mark_to_move_witness :
  ∃ k r m k',
    minimax 10 threat_board "Z" "O" "X" 0 = Ok ((2, None), k) ∧
    alphabeta 10 threat_board "Z" (-2) 2 "O" "X" 0 = Ok ((r, Some m), k') ∧
    m ∈ moves threat_board ∧ -1 ≤ r ≤ 1.
Proof.
  apply third_mark_to_move;
    [apply valid_OX | reflexivity | discriminate | discriminate | discriminate
    | lia | reflexivity].
Defined.

(** ** The display *)

(** X14.  [print_board] reads the cells 0 to 8.  On a list of at least
    nine cells it writes seven lines, the three rows between two blank
    lines with a rule after the first and the second row, and reads
    nothing; on a shorter list it raises [IndexError]. *)
Theorem print_board_needs_nine_cells (b : board) (w : Game.world) :
  if decide (9 ≤ length b)%nat then
    Game.print_board b w =
      Game.Done tt (Game.World (Game.stdin w) (Game.stdout w ++ board_text b)
                      (Game.minimax_nodes w) (Game.alphabeta_nodes w))
  else
    ∃ w', Game.print_board b w = Game.Failed (Game.Raised IndexError) w' ∧
      Game.stdin w' = Game.stdin w.
Proof.
  destruct (decide (9 ≤ length b)%nat) as [Hb|Hb].
  - do 9 (destruct b as [|? b]; [simpl in Hb; lia|]).
    unfold Game.print_board, Game.iobind, Game.print, board_text, cell.
    simpl. by rewrite <- !app_assoc.
  - do 9 (destruct b as [|? b]; [eexists; split; reflexivity|]).
    simpl in Hb. lia.
Qed.

(** ** The game loop *)

Lemma count_mark_cons (y c : string) (b : board) :
  count_mark y (c :: b) = (if decide (c = y) then 1 else 0) + count_mark y b.
Proof.
  unfold count_mark. rewrite filter_cons.
  destruct (decide (c = y)); simpl length; lia.
Qed.

Lemma count_mark_insert (b : board) (m : nat) (x y : string) :
  b !! m = Some EMPTY → y ≠ EMPTY →
  count_mark y (<[m := x]> b) =
    count_mark y b + (if decide (x = y) then 1 else 0).
Proof.
  intros Hm Hy. revert m Hm. induction b as [|c b IH]; intros m Hm; [done|].
  destruct m as [|m]; simpl in *.
  - injection Hm as ->. rewrite !count_mark_cons.
    destruct (decide (EMPTY = y)); [congruence|]. lia.
  - rewrite !count_mark_cons, (IH m Hm). lia.
Qed.

Lemma lead_play (b : board) (m : nat) (x : string) :
  m ∈ moves b →
  lead (play b m x) =
    lead b + (if decide (x = Game.human) then 1 else 0)
           - (if decide (x = Game.ai) then 1 else 0).
Proof.
  intros Hm%elem_of_moves. unfold lead, play.
  rewrite !(count_mark_insert b m x) by done. lia.
Qed.

Lemma marks_play (me opp : string) (b : board) (m : nat) (x : string) :
  marks me opp b → mark_of me opp x → marks me opp (play b m x).
Proof. intros Hb Hx. by apply Forall_insert. Qed.

Lemma winner_of_marks (me opp : string) (b : board) (x : string) :
  length b = 9%nat → marks me opp b → winner b = Ok (Some x) →
  x = me ∨ x = opp.
Proof.
  intros Hb Hmarks Hw.
  destruct (winner_in_first LINES b (LINES_in_range b Hb)) as (w & Hw' & Hspec).
  unfold winner in Hw. rewrite Hw in Hw'. injection Hw' as <-.
  destruct Hspec as (_ & l & _ & _ & (Hne & Hx & _) & _).
  pose proof (Forall_lookup_1 _ _ _ _ Hmarks Hx) as [?|[?|?]]; auto.
  done.
Qed.

(** A search that returns with any stack returns the answer it returns
    with ten calls of stack or more. *)
Lemma minimax_any_depth (me opp : string) (depth : nat) (b : board)
    (p : string) (n n' : Z) (a : answer) :
  valid_sides me opp → length b = 9%nat → to_move me opp p →
  minimax depth b p me opp n = Ok (a, n') →
  a = answer_at me opp (max depth 10) b p.
Proof.
  intros [Hm Ho Hd] Hb Hp Hcall.
  apply (minimax_deeper_le depth (max depth 10)) in Hcall; [|lia].
  rewrite (minimax_returns me opp Hm Ho Hd _ b p n) in Hcall
    by (apply fits_ten; [done..|lia]).
  by injection Hcall as <- _.
Qed.

Lemma alphabeta_any_depth (me opp : string) (depth : nat) (b : board)
    (p : string) (n n' : Z) (a : answer) :
  valid_sides me opp → length b = 9%nat → to_move me opp p →
  alphabeta depth b p (-2) 2 me opp n = Ok (a, n') →
  a = answer_at me opp (max depth 10) b p.
Proof.
  intros [Hm Ho Hd] Hb Hp Hcall.
  apply (alphabeta_deeper_le depth (max depth 10)) in Hcall; [|lia].
  destruct (alphabeta_exact me opp Hm Ho Hd (max depth 10) b p (-2) 2 n)
    as [k Hex]; [apply fits_ten; [done..|lia] | lia | lia |].
  rewrite Hex in Hcall. by injection Hcall as <- _.
Qed.

Lemma in_play_human (first : string) (b : board) (m : nat) :
  in_play first b Game.human → terminal b = Ok false → m ∈ moves b →
  in_play first (play b m Game.human) Game.ai.
Proof.
  intros (Hb & _ & Hfirst & Hmarks & Hlead & Hsec) Ht Hm.
  split_and!.
  - by rewrite length_play.
  - by left.
  - done.
  - apply marks_play; [done|]. right. by right.
  - rewrite (lead_play b m _ Hm), Hlead.
    destruct Hfirst as [->| ->]; reflexivity.
  - inversion Hsec as [? ? ? u Ht' _ _|? ? ? ? _ Hp _ _|? ? ? _ _ Hall]; subst.
    + congruence.
    + discriminate Hp.
    + by apply Hall.
Qed.

Lemma in_play_ai (first : string) (b : board) (D : nat) :
  in_play first b Game.ai → terminal b = Ok false → (10 ≤ D)%nat →
  ∃ m, (answer_at Game.ai Game.human D b Game.ai).2 = Some m ∧
    m ∈ moves b ∧ in_play first (play b m Game.ai) Game.human.
Proof.
  intros (Hb & Hc & Hfirst & Hmarks & Hlead & Hsec) Ht HD.
  destruct (valid_OX : valid_sides Game.ai Game.human) as [Hm Ho Hd].
  pose proof (fits_ten Game.ai Game.human D b Game.ai Hb Hc HD) as Hfit.
  destruct (answer_at_first Game.ai Game.human Hm Ho Hd D b Game.ai Hfit Ht)
    as (m & Heq & Hin & [Hs _] & _).
  destruct (answer_at_game_value Game.ai Game.human Hm Ho Hd D b Game.ai Hfit)
    as [_ Hh].
  pose proof (secure_le_hold Game.ai Game.human Hd b _ _ _ Hsec Hh) as Hpos.
  exists m. split; [by rewrite Heq|]. split; [done|]. split_and!.
  - by rewrite length_play.
  - by right.
  - done.
  - apply marks_play; [done|]. right. by left.
  - rewrite (lead_play b m _ Hin), Hlead.
    destruct Hfirst as [->| ->]; reflexivity.
  - eapply can_secure_mono; [exact Hs | done].
Qed.

Lemma print_board_nine (b : board) (w : Game.world) :
  length b = 9%nat →
  Game.print_board b w =
    Game.Done tt (Game.World (Game.stdin w) (Game.stdout w ++ board_text b)
                    (Game.minimax_nodes w) (Game.alphabeta_nodes w)).
Proof.
  intros Hb. do 9 (destruct b as [|? b]; [simpl in Hb; lia|]).
  unfold Game.print_board, Game.iobind, Game.print, board_text, cell.
  simpl. by rewrite <- !app_assoc.
Qed.

(** The turn of the program: it ends with a move made on an empty cell,
    from which a draw can still be secured, unless the search has run
    out of stack. *)
Lemma ai_move_spec (first : string) (depth : nat) (use_pruning : bool)
    (b : board) (w : Game.world) :
  in_play first b Game.ai → terminal b = Ok false →
  match Game.ai_move depth use_pruning b w with
  | Game.Done (Some b') w' =>
      in_play first b' Game.human ∧ Game.stdin w' = Game.stdin w ∧
      length (moves b) = S (length (moves b'))
  | Game.Done None _ => False
  | Game.Failed e _ => (depth < 10)%nat
  | Game.Cut _ => False
  end.
Proof.
  intros Hin Ht. pose proof Hin as (Hb & Hc & _).
  destruct (in_play_ai first b (max depth 10) Hin Ht) as (m & Hmv & Hm & Hnext);
    [lia|].
  destruct (valid_OX : valid_sides Game.ai Game.human) as [Hvm Hvo Hvd].
  unfold Game.ai_move, Game.iobind, Game.print, Game.reset_counters.
  destruct use_pruning; cbn [Game.stdin Game.stdout Game.minimax_nodes
                              Game.alphabeta_nodes].
  - unfold Game.call_alphabeta at 1.
    cbn [Game.stdin Game.stdout Game.minimax_nodes Game.alphabeta_nodes].
    destruct (alphabeta depth b Game.ai (-2) 2 Game.ai Game.human 0)
      as [[a n']|e] eqn:Hcall.
    + pose proof (alphabeta_any_depth _ _ _ _ _ _ _ _ valid_OX Hb Hc Hcall)
        as ->.
      unfold Game.ai, Game.human in *.
      rewrite Hmv. unfold Game.plus_one, Game.ret, Game.set_move, Game.lift.
      rewrite (setitem_Ok b m "O" Hm).
      split_and!; [done | done |].
      apply moves_insert; [done | done].
    + destruct (decide (depth < 10)%nat) as [|Hge]; [done|]. exfalso.
      destruct (alphabeta_spec Game.ai Game.human Hvm Hvo Hvd depth b Game.ai
                  (-2) 2 0) as (r & mv & k & Hok & _).
      { apply fits_ten; [done..|lia]. }
      congruence.
  - unfold Game.call_minimax at 1.
    cbn [Game.stdin Game.stdout Game.minimax_nodes Game.alphabeta_nodes].
    destruct (minimax depth b Game.ai Game.ai Game.human 0)
      as [[a n']|e] eqn:Hcall.
    + pose proof (minimax_any_depth _ _ _ _ _ _ _ _ valid_OX Hb Hc Hcall)
        as ->.
      unfold Game.ai, Game.human in *.
      rewrite Hmv. unfold Game.plus_one, Game.ret, Game.set_move, Game.lift.
      rewrite (setitem_Ok b m "O" Hm).
      split_and!; [done | done |].
      apply moves_insert; [done | done].
    + destruct (decide (depth < 10)%nat) as [|Hge]; [done|]. exfalso.
      rewrite (minimax_returns Game.ai Game.human Hvm Hvo Hvd depth b Game.ai 0)
        in Hcall by (apply fits_ten; [done..|lia]).
      discriminate.
Qed.

(** The turn of the human: a line is read; the board changes only by a
    mark on an empty cell. *)
Lemma human_move_spec (first : string) (parse_int : string → option Z)
    (b : board) (w : Game.world) :
  in_play first b Game.human → terminal b = Ok false →
  match Game.human_move parse_int b w with
  | Game.Done (Some b') w' =>
      in_play first b' Game.ai ∧
      (length (Game.stdin w') < length (Game.stdin w))%nat ∧
      length (moves b) = S (length (moves b'))
  | Game.Done None w' =>
      (length (Game.stdin w') < length (Game.stdin w))%nat
  | Game.Failed e w' => e = Game.EOFError ∧ Game.stdin w' = []
  | Game.Cut _ => False
  end.
Proof.
  intros Hin Ht. unfold Game.human_move, Game.iobind, Game.input.
  destruct (Game.stdin w) as [|line rest]; [done|].
  destruct (parse_int line) as [z|]; [|simpl; lia].
  destruct (bool_decide (z - 1 ∈ Z.of_nat <$> moves b)) eqn:Hpos;
    [|simpl; lia].
  apply bool_decide_eq_true in Hpos.
  apply list_elem_of_fmap in Hpos as (m & Hz & Hm).
  rewrite Hz, Nat2Z.id. unfold Game.lift.
  rewrite (setitem_Ok b m Game.human Hm). simpl.
  split_and!; [by apply in_play_human | lia |].
  apply moves_insert; [done | done].
Qed.

Lemma turn_spec (first : string) (parse_int : string → option Z)
    (depth : nat) (use_pruning : bool) (b : board) (c : string)
    (w : Game.world) :
  in_play first b c → terminal b = Ok false →
  match Game.turn parse_int depth use_pruning b c w with
  | Game.Done (b', c') w' =>
      in_play first b' c' ∧
      (length (Game.stdin w') + length (moves b')
         < length (Game.stdin w) + length (moves b))%nat
  | Game.Failed e w' => stops depth e w'
  | Game.Cut _ => False
  end.
Proof.
  intros Hin Ht. pose proof Hin as (_ & Hc & _).
  destruct Hc as [->| ->]; unfold Game.turn, Game.iobind;
    change (String.eqb Game.ai Game.human) with false;
    change (String.eqb Game.human Game.human) with true; cbv iota.
  - pose proof (ai_move_spec first depth use_pruning b w Hin Ht) as Hmove.
    destruct (Game.ai_move depth use_pruning b w) as [[b'|] w'|e w'|w'];
      [|done|simpl; unfold stops; by right|done].
    destruct Hmove as (Hnext & Hstdin & Hlen).
    rewrite (print_board_nine b' w') by apply Hnext.
    unfold Game.ret. simpl. split; [done|]. rewrite Hstdin. lia.
  - pose proof (human_move_spec first parse_int b w Hin Ht) as Hmove.
    destruct (Game.human_move parse_int b w) as [[b'|] w'|e w'|w'];
      [| |simpl; unfold stops; by left|done].
    + destruct Hmove as (Hnext & Hstdin & Hlen).
      rewrite (print_board_nine b' w') by apply Hnext.
      unfold Game.ret. simpl. split; [done|]. lia.
    + unfold Game.ret. simpl. split; [done|]. lia.
Qed.

(** The loop ends on a terminal board of a game in play, or stops, or is
    cut when [steps] is not above the lines to read and the cells to
    fill. *)
Lemma play_loop_spec (first : string) (parse_int : string → option Z)
    (depth : nat) (use_pruning : bool) (steps : nat) (b : board)
    (c : string) (w : Game.world) :
  in_play first b c →
  match Game.play_loop parse_int depth use_pruning steps b c w with
  | Game.Done b' w' =>
      terminal b' = Ok true ∧ ∃ c', in_play first b' c'
  | Game.Failed e w' => stops depth e w'
  | Game.Cut _ =>
      (steps ≤ length (Game.stdin w) + length (moves b))%nat
  end.
Proof.
  revert b c w. induction steps as [|steps IH]; intros b c w Hin.
  - simpl. unfold Game.iobind, Game.lift.
    destruct (terminal_total b) as [[] Ht]; [apply Hin|..]; rewrite Ht.
    + unfold Game.ret. split; [done | by exists c].
    + lia.
  - cbn [Game.play_loop]. unfold Game.iobind at 1. unfold Game.lift.
    destruct (terminal_total b) as [[] Ht]; [apply Hin|..]; rewrite Ht.
    + unfold Game.ret. split; [done | by exists c].
    + unfold Game.iobind.
      pose proof (turn_spec first parse_int depth use_pruning b c w Hin Ht)
        as Hturn.
      destruct (Game.turn parse_int depth use_pruning b c w)
        as [[b' c'] w'|e w'|w']; [|done|done].
      destruct Hturn as [Hnext Hless]. simpl.
      specialize (IH b' c' w' Hnext).
      destruct (Game.play_loop parse_int depth use_pruning steps b' c' w');
        [done | done | lia].
Qed.

Lemma in_play_start (first : string) :
  to_move Game.ai Game.human first → in_play first (replicate 9 " ") first.
Proof.
  intros Hfirst. split_and!; try done.
  - repeat first [apply List.Forall_nil | apply List.Forall_cons; [by left|]].
  - by rewrite String.eqb_refl.
  - destruct (valid_OX : valid_sides Game.ai Game.human) as [Hm Ho Hd].
    pose proof (answer_at_game_value Game.ai Game.human Hm Ho Hd 10
                  empty_board first
                  (fits_ten _ _ 10 empty_board first eq_refl Hfirst (le_n 10)))
      as [Hs _].
    unfold answer_at in Hs.
    rewrite (minimax_empty_board Game.ai Game.human first 10 0 valid_OX Hfirst
               (le_n 10)) in Hs.
    exact Hs.
Qed.

(** A terminal board of a game in play: the program has won or nobody
    has. *)
Lemma in_play_end (first : string) (b : board) (c : string) :
  in_play first b c → terminal b = Ok true →
  winner b = Ok (Some Game.ai) ∨ (winner b = Ok None ∧ moves b = []).
Proof.
  intros (Hb & _ & _ & Hmarks & _ & Hsec) Ht.
  destruct (winner_total b Hb) as [w Hw].
  inversion Hsec as [? ? ? u _ Hu Hle|? ? ? ? Ht' _ _ _|? ? ? Ht' _ _]; subst;
    [|congruence..].
  unfold utility in Hu. rewrite Hw in Hu. simpl in Hu. injection Hu as <-.
  destruct w as [x|].
  - left. destruct (winner_of_marks _ _ b x Hb Hmarks Hw) as [->| ->]; [done|].
    simpl in Hle. lia.
  - right. split; [done|]. unfold terminal in Ht. rewrite Hw in Ht.
    simpl in Ht. injection Ht as Ht. by destruct (moves b).
Qed.

Lemma play_game_spec (parse_int : string → option Z)
    (says_yes : string → bool) (depth steps : nat) (w : Game.world) :
  match Game.play_game parse_int says_yes depth steps w with
  | Game.Done b w' =>
      ∃ line rest c,
        Game.stdin w = line :: rest ∧
        in_play (if says_yes line then Game.human else Game.ai) b c ∧
        terminal b = Ok true ∧
        ((winner b = Ok (Some Game.ai) ∧
          last (Game.stdout w') = Some (Game.Print "🤖 AI wins!")) ∨
         (winner b = Ok None ∧ moves b = [] ∧
          last (Game.stdout w') = Some (Game.Print "😐 It's a draw!")))
  | Game.Failed e w' => stops depth e w'
  | Game.Cut _ => (steps ≤ length (Game.stdin w) + 7)%nat
  end.
Proof.
  unfold Game.play_game. unfold Game.iobind at 1. unfold Game.print at 1.
  unfold Game.iobind at 1. rewrite print_board_nine by done.
  unfold Game.iobind at 1. unfold Game.input at 1.
  cbn [Game.stdin Game.stdout Game.minimax_nodes Game.alphabeta_nodes].
  destruct (Game.stdin w) as [|line rest]; [by left|].
  unfold Game.iobind at 1. unfold Game.input at 1.
  cbn [Game.stdin Game.stdout Game.minimax_nodes Game.alphabeta_nodes].
  destruct rest as [|line2 rest]; [by left|].
  unfold Game.iobind at 1.
  set (first := if says_yes line then Game.human else Game.ai).
  assert (to_move Game.ai Game.human first) as Hfirst
    by (unfold first; destruct (says_yes line); [by right | by left]).
  match goal with
  | |- context [Game.play_loop ?p ?d ?u ?s ?b ?c ?w0] =>
      pose proof (play_loop_spec first p d u s b c w0 (in_play_start first Hfirst))
        as Hloop;
      destruct (Game.play_loop p d u s b c w0) as [b' w'|e w'|w']
  end; [|done|simpl in *; lia].
  destruct Hloop as (Ht & c' & Hin).
  unfold Game.iobind at 1. unfold Game.lift at 1.
  destruct (in_play_end first b' c' Hin Ht) as [Hw|[Hw Hfull]]; rewrite Hw.
  - unfold Game.iobind, Game.print, Game.ret. simpl.
    exists line, (line2 :: rest), c'. split_and!; try done.
    left. split; [done|]. by rewrite last_snoc.
  - unfold Game.iobind, Game.print, Game.ret. simpl.
    exists line, (line2 :: rest), c'. split_and!; try done.
    right. split_and!; [done..|]. by rewrite last_snoc.
Qed.



(** X16.  With ten calls of stack for the searches, [play_game] ends the
    game or raises [EOFError] because the input has run out: the searches
    are only called on boards that are not terminal and always give a
    move, so that no [TypeError], [IndexError] or [RecursionError]
    arises, and each turn of the loop reads a line or fills a cell. *)
Theorem play_game_ends (parse_int : string → option Z)
    (says_yes : string → bool) (depth steps : nat) (w : Game.world) :
  (10 ≤ depth)%nat → (length (Game.stdin w) + 8 ≤ steps)%nat →
  (∃ b w', Game.play_game parse_int says_yes depth steps w = Game.Done b w') ∨
  (∃ w', Game.play_game parse_int says_yes depth steps w =
           Game.Failed Game.EOFError w' ∧ Game.stdin w' = []).
Proof.
  intros Hdepth Hsteps.
  pose proof (play_game_spec parse_int says_yes depth steps w) as Hspec.
  destruct (Game.play_game parse_int says_yes depth steps w) as [b w'|e w'|w'].
  - left. by exists b, w'.
  - right. destruct Hspec as [[-> Hin]|?]; [|lia]. by exists w'.
  - lia.
Qed.

Lemma play_game_ends_witness :
  (∃ b w', Game.play_game digit yes 10 30 sample_world = Game.Done b w') ∨
  (∃ w', Game.play_game digit yes 10 30 sample_world =
           Game.Failed Game.EOFError w' ∧ Game.stdin w' = []).
Proof. apply play_game_ends; [lia | simpl; lia]. Defined.

(** X17.  The board of a finished game has nine cells that hold the two
    marks, placed in turn: when the human began it has as many marks as
    the program or one more, and when the program began as many or one
    less. *)
Theorem play_game_takes_turns (parse_int : string → option Z)
    (says_yes : string → bool) (depth steps : nat) (w w' : Game.world)
    (b : board) :
  Game.play_game parse_int says_yes depth steps w = Game.Done b w' →
  length b = 9%nat ∧ marks Game.ai Game.human b ∧
  ∃ line rest, Game.stdin w = line :: rest ∧
    if says_yes line then 0 ≤ lead b ≤ 1 else -1 ≤ lead b ≤ 0.
Proof.
  intros Hrun.
  pose proof (play_game_spec parse_int says_yes depth steps w) as Hspec.
  rewrite Hrun in Hspec.
  destruct Hspec as (line & rest & c & Hstdin & Hin & _).
  destruct Hin as (Hb & Hc & _ & Hmarks & Hlead & _).
  split_and!; [done..|]. exists line, rest. split; [done|].
  rewrite Hlead. destruct (says_yes line), Hc as [->| ->]; simpl; lia.
Qed.

Lemma play_game_takes_turns_witness :
  ∃ b w',
    Game.play_game digit yes 10 30 sample_world = Game.Done b w' ∧
    length b = 9%nat ∧ marks Game.ai Game.human b ∧
    ∃ line rest, Game.stdin sample_world = line :: rest ∧
      if yes line then 0 ≤ lead b ≤ 1 else -1 ≤ lead b ≤ 0.
Proof.
  eexists _, _.
  assert (Game.play_game digit yes 10 30 sample_world = Game.Done _ _) as Hrun
    by (vm_compute; reflexivity).
  split; [exact Hrun|].
  exact (play_game_takes_turns digit yes 10 30 sample_world _ _ Hrun).
Defined.
